(** * Industrial CV: a shallow embedding of the proof-of-concept code
      and of the defect-detection core it is planned to grow into.

    The first modules embed code that exists in the repository:
    - [FrameProcessor]  : src/cpp/frame_processor.cpp (+ frame_processor.h)
    - [WebGPUDetector]  : src/webgpu/detector.ts
    - [CameraCapture]   : src/camera/capture.ts
    - [OptimizedFrameProcessor] : the ring buffer sketched in
      industrial-cv-poc-plan.md (Task 5.3)

    The remaining modules cover parts of the detection core: the frame
    ring buffer, the scheduler's in-order delivery and the temporal
    aggregator.  The repository holds only a plan for the core
    (industrial-cv-poc-plan.md), so those definitions are modelled from
    the specification and each one says so in its doc comment. *)

From Stdlib Require Import ZArith NArith Lia Bool Sorted.
From stdpp Require Import gmap strings list pretty sorting.

(* ===================================================================== *)
(** ** src/cpp/frame_processor.cpp *)
(* ===================================================================== *)

Module FrameProcessor.
Local Open Scope string_scope.

(** [WGPUDevice], [WGPUComputePipeline] and [WGPUBuffer] are opaque
    handles (pointers); [nullptr] is the address 0 and [!device] tests
    for it. *)
Definition WGPUDevice := N.
Definition WGPUComputePipeline := N.
Definition WGPUBuffer := N.
Definition nullptr : N := 0%N.

Definition is_null (p : N) : bool := N.eqb p nullptr.

(** [struct ProcessedFrame] of frame_processor.h, with its default
    member initialisers. *)
Record ProcessedFrame := mkProcessedFrame {
  processed : bool;
  width : Z;
  height : Z;
  error : string
}.

Definition ProcessedFrame_default : ProcessedFrame :=
  {| processed := false; width := 0; height := 0; error := "" |}.

(** The private members of [class FrameProcessor]. *)
Record t := mk {
  device : WGPUDevice;
  pipeline : WGPUComputePipeline;
  outputBuffer : WGPUBuffer
}.

(** Lines written to [std::cout] and [std::cerr]. *)
Inductive Output :=
| Cout (line : string)
| Cerr (line : string).

(** [FrameProcessor::FrameProcessor()] *)
Definition constructor : t * list Output :=
  ({| device := nullptr; pipeline := nullptr; outputBuffer := nullptr |},
   [Cout "FrameProcessor initialized"]).

(** [bool FrameProcessor::initializePipeline()] *)
Definition initializePipeline (this : t) : bool * t * list Output :=
  (true, this, [Cout "Initializing WebGPU compute pipeline"]).

(** [bool FrameProcessor::initialize(WGPUDevice device)]: the member is
    assigned before the argument is tested. *)
Definition initialize (this : t) (dev : WGPUDevice) : bool * t * list Output :=
  let this := {| device := dev;
                 pipeline := pipeline this;
                 outputBuffer := outputBuffer this |} in
  if is_null dev then
    (false, this, [Cerr "Invalid WebGPU device provided"])
  else
    initializePipeline this.

(** [ProcessedFrame FrameProcessor::processFrame(uint32_t, int, int)] *)
Definition processFrame (this : t) (textureId : N) (w h : Z)
  : ProcessedFrame * list Output :=
  let result := ProcessedFrame_default in
  let result := {| processed := false; width := width result;
                   height := height result; error := "" |} in
  if is_null (device this) then
    ({| processed := processed result; width := width result;
        height := height result;
        error := "WebGPU device not initialized" |}, [])
  else
    ({| processed := true; width := w; height := h;
        error := error result |},
     [Cout ("Processing frame: " ++ pretty w ++ "x" ++ pretty h
            ++ " (texture ID: " ++ pretty textureId ++ ")")]).

(** A client's history of [initialize] calls on one object, oldest
    first; the object after the history. *)
Fixpoint initialize_all (this : t) (devs : list WGPUDevice) : t :=
  match devs with
  | [] => this
  | d :: devs => initialize_all (snd (fst (initialize this d))) devs
  end.

(** "initialize has been called with a non-null device" *)
Definition called_with_non_null (devs : list WGPUDevice) : bool :=
  existsb (fun d => negb (is_null d)) devs.

(** The frame the claim promises when the device is missing, and the
    one it promises otherwise. *)
Definition not_initialized_frame : ProcessedFrame :=
  {| processed := false; width := 0; height := 0;
     error := "WebGPU device not initialized" |}.

Definition processed_frame (w h : Z) : ProcessedFrame :=
  {| processed := true; width := w; height := h; error := "" |}.

End FrameProcessor.

(* ===================================================================== *)
(** ** src/webgpu/detector.ts *)
(* ===================================================================== *)

Module WebGPUDetector.
Local Open Scope string_scope.

(** A value carried by a JavaScript [throw] or by a rejected promise:
    either an [Error] (what [error instanceof Error] accepts), with its
    [message], or anything else. *)
Inductive Thrown :=
| JSError (message : string)
| JSOther.

(** How the evaluation of an expression (or an awaited promise) ends. *)
Inductive Completion (A : Type) :=
| Normal (a : A)
| Throw (e : Thrown).
Arguments Normal {A} a.
Arguments Throw {A} e.

(** The browser objects the detector talks to.  Each call into the
    browser is recorded with the way it ends in this environment. *)
Record GPUDevice := {
  device_id : N;
  addEventListener : Completion unit
}.

Record GPUAdapter := {
  adapter_id : N;
  requestDevice : Completion (option GPUDevice)
}.

Record GPU := {
  requestAdapter : Completion (option GPUAdapter)
}.

(** [navigator.gpu]: [None] is [undefined]. *)
Record Navigator := {
  gpu : Completion (option GPU)
}.

(** [interface WebGPUStatus]; an optional field that the object literal
    leaves out is [None], [Some None] is an explicit [null]. *)
Record WebGPUStatus := {
  supported : bool;
  status_adapter : option (option GPUAdapter);
  status_device : option (option GPUDevice);
  status_error : option string
}.

(** The private members of [class WebGPUDetector]. *)
Record t := {
  adapter : option GPUAdapter;
  device : option GPUDevice
}.

Definition new : t := {| adapter := None; device := None |}.

Inductive ConsoleLine :=
| console_log (msg : string)
| console_error (msg : string).

(** Code that reads and writes [this], writes to the console and may
    throw. *)
Definition M (A : Type) : Type :=
  t -> list ConsoleLine -> Completion A * t * list ConsoleLine.

Definition ret {A} (a : A) : M A := fun this out => (Normal a, this, out).

Definition bind {A B} (m : M A) (k : A -> M B) : M B :=
  fun this out =>
    match m this out with
    | (Normal a, this, out) => k a this out
    | (Throw e, this, out) => (Throw e, this, out)
    end.

Notation "'let!' x ':=' m 'in' k" := (bind m (fun x => k))
  (at level 10, x name, m at level 100, k at level 200).
Notation "'do!' m 'in' k" := (bind m (fun _ => k))
  (at level 10, m at level 100, k at level 200).

(** [await p] / evaluating an expression of the environment. *)
Definition eval {A} (c : Completion A) : M A := fun this out => (c, this, out).

Definition log (line : ConsoleLine) : M unit :=
  fun this out => (Normal tt, this, (out ++ [line])%list).

Definition get_this : M t := fun this out => (Normal this, this, out).

Definition set_adapter (a : option GPUAdapter) : M unit :=
  fun this out => (Normal tt, {| adapter := a; device := device this |}, out).

Definition set_device (d : option GPUDevice) : M unit :=
  fun this out => (Normal tt, {| adapter := adapter this; device := d |}, out).

(** [try { body } catch (error) { handler }] *)
Definition try_catch {A} (body : M A) (handler : Thrown -> M A) : M A :=
  fun this out =>
    match body this out with
    | (Normal a, this, out) => (Normal a, this, out)
    | (Throw e, this, out) => handler e this out
    end.

(** [error instanceof Error ? error.message : 'Unknown error'] *)
Definition error_message (e : Thrown) : string :=
  match e with
  | JSError message => message
  | JSOther => "Unknown error"
  end.

(** The [try] block of [initialize]. *)
Definition initialize_try (navigator : Navigator) : M WebGPUStatus :=
  let! g := eval (gpu navigator) in
  match g with
  | None =>
      ret {| supported := false; status_adapter := None;
             status_device := None;
             status_error := Some "WebGPU not supported in this browser" |}
  | Some g =>
      do! log (console_log "WebGPU is available, requesting adapter...") in
      let! a := eval (requestAdapter g) in
      do! set_adapter a in
      match a with
      | None =>
          ret {| supported := false; status_adapter := None;
                 status_device := None;
                 status_error := Some "No WebGPU adapter available" |}
      | Some ad =>
          do! log (console_log "WebGPU adapter obtained:") in
          let! d := eval (requestDevice ad) in
          do! set_device d in
          match d with
          | None =>
              let! this := get_this in
              ret {| supported := false;
                     status_adapter := Some (adapter this);
                     status_device := None;
                     status_error := Some "Failed to create WebGPU device" |}
          | Some dev =>
              do! log (console_log "WebGPU device created successfully") in
              do! eval (addEventListener dev) in
              let! this := get_this in
              ret {| supported := true;
                     status_adapter := Some (adapter this);
                     status_device := Some (device this);
                     status_error := None |}
          end
      end
  end.

(** The [catch (error)] clause of [initialize]. *)
Definition initialize_catch (e : Thrown) : M WebGPUStatus :=
  do! log (console_error "WebGPU initialization failed:") in
  ret {| supported := false; status_adapter := None;
         status_device := None;
         status_error := Some (error_message e) |}.

(** [async initialize(): Promise<WebGPUStatus>], for a call during
    which nothing else touches the detector: the body runs from the
    call to the [return] as if the two [await]s were not there.  Calls
    that overlap are [exec] below. *)
Definition initialize (navigator : Navigator) : M WebGPUStatus :=
  try_catch (initialize_try navigator) initialize_catch.

(** [getAdapter(): GPUAdapter | null] *)
Definition getAdapter (this : t) : option GPUAdapter := adapter this.

(** [getDevice(): GPUDevice | null] *)
Definition getDevice (this : t) : option GPUDevice := device this.

(** A status "carries a non-empty error string". *)
Definition has_non_empty_error (s : WebGPUStatus) : bool :=
  match status_error s with
  | Some msg => negb (String.eqb msg "")
  | None => false
  end.

(** The [try] block of [initialize] throws [e] in this environment. *)
Definition throws (navigator : Navigator) (this : t) (out : list ConsoleLine)
    (e : Thrown) : Prop :=
  exists this' out', initialize_try navigator this out = (Throw e, this', out').

(** ** Calls of [initialize] that overlap

    An [async] function runs without interruption from one [await] to
    the next.  While a call is suspended at an [await] other code runs,
    and that can be another call of [initialize] on the same detector,
    which writes the same [this.adapter] and [this.device].  The body
    of [initialize] has two [await]s, hence three segments. *)

(** Where a suspended call waits: for the promise of [requestAdapter]
    (line 25), or for the promise of [requestDevice] of the adapter the
    call obtained (line 39). *)
Inductive Pending :=
| AwaitAdapter (g : GPU)
| AwaitDevice (ad : GPUAdapter).

Inductive Progress :=
| Suspended (p : Pending)
| Returned (s : WebGPUStatus).

(** The [catch (error)] clause, whichever segment the throw is in. *)
Definition initialize_caught (e : Thrown) : M Progress :=
  let! s := initialize_catch e in ret (Returned s).

(** From the call to the first [await]. *)
Definition initialize_begin (navigator : Navigator) : M Progress :=
  try_catch
    (let! g := eval (gpu navigator) in
     match g with
     | None =>
         ret (Returned
                {| supported := false; status_adapter := None;
                   status_device := None;
                   status_error := Some "WebGPU not supported in this browser" |})
     | Some g =>
         do! log (console_log "WebGPU is available, requesting adapter...") in
         ret (Suspended (AwaitAdapter g))
     end)
    initialize_caught.

(** From the settlement of the awaited promise to the next [await] or
    to the [return].  The status returned after the second [await]
    reads [this.adapter] again (lines 53 and 67). *)
Definition initialize_resume (p : Pending) : M Progress :=
  try_catch
    match p with
    | AwaitAdapter g =>
        let! a := eval (requestAdapter g) in
        do! set_adapter a in
        match a with
        | None =>
            ret (Returned
                   {| supported := false; status_adapter := None;
                      status_device := None;
                      status_error := Some "No WebGPU adapter available" |})
        | Some ad =>
            do! log (console_log "WebGPU adapter obtained:") in
            ret (Suspended (AwaitDevice ad))
        end
    | AwaitDevice ad =>
        let! d := eval (requestDevice ad) in
        do! set_device d in
        match d with
        | None =>
            let! this := get_this in
            ret (Returned
                   {| supported := false;
                      status_adapter := Some (adapter this);
                      status_device := None;
                      status_error := Some "Failed to create WebGPU device" |})
        | Some dev =>
            do! log (console_log "WebGPU device created successfully") in
            do! eval (addEventListener dev) in
            let! this := get_this in
            ret (Returned
                   {| supported := true;
                      status_adapter := Some (adapter this);
                      status_device := Some (device this);
                      status_error := None |})
        end
    end
    initialize_caught.

(** A call of [initialize] on the detector: not made yet (with the
    browser it will find), suspended at an [await], or settled: its
    promise fulfilled with a status, or rejected because the function
    threw. *)
Inductive Call :=
| NotCalled (navigator : Navigator)
| Waiting (p : Pending)
| Fulfilled (s : WebGPUStatus)
| Rejected (e : Thrown).

(** One detector with its console and the calls made on it. *)
Record Detector := {
  detector_this : t;
  detector_console : list ConsoleLine;
  detector_calls : list Call
}.

Definition settle (r : Completion Progress) : Call :=
  match r with
  | Normal (Suspended p) => Waiting p
  | Normal (Returned s) => Fulfilled s
  | Throw e => Rejected e
  end.

(** Run one segment of a call on the detector. *)
Definition run_segment (i : nat) (m : M Progress) (dt : Detector) : Detector :=
  let '(r, this, out) := m (detector_this dt) (detector_console dt) in
  {| detector_this := this;
     detector_console := out;
     detector_calls := <[i := settle r]> (detector_calls dt) |}.

(** The event loop runs the next segment of call [i]. *)
Definition advance (dt : Detector) (i : nat) : Detector :=
  match detector_calls dt !! i with
  | Some (NotCalled navigator) => run_segment i (initialize_begin navigator) dt
  | Some (Waiting p) => run_segment i (initialize_resume p) dt
  | _ => dt
  end.

(** An execution: the calls whose segments are run, in the order in
    which they are run. *)
Definition exec (schedule : list nat) (dt : Detector) : Detector :=
  fold_left advance schedule dt.

Definition start (this : t) (out : list ConsoleLine)
    (navigators : list Navigator) : Detector :=
  {| detector_this := this;
     detector_console := out;
     detector_calls := map NotCalled navigators |}.

(** What holds of the status of every call, overlapped or not. *)
Definition status_ok (navigator : Navigator) (s : WebGPUStatus) : Prop :=
  if supported s then
    exists d, status_device s = Some (Some d)
  else
    exists msg,
      status_error s = Some msg /\
      (msg <> "" \/ forall this out, throws navigator this out (JSError "")).

(** What is known of a call with the browser [navigator] after [n] of
    its segments were run. *)
Definition call_ok (navigator : Navigator) (n : nat) (c : Call) : Prop :=
  match c with
  | NotCalled navigator' => navigator' = navigator /\ n = 0
  | Waiting (AwaitAdapter g) => gpu navigator = Normal (Some g) /\ n = 1
  | Waiting (AwaitDevice ad) =>
      (exists g, gpu navigator = Normal (Some g) /\
                 requestAdapter g = Normal (Some ad)) /\ n = 2
  | Fulfilled s => status_ok navigator s /\ 1 <= n
  | Rejected _ => False
  end.

(** Two calls that overlap: the first obtains an adapter and a device,
    the second finds no adapter. *)
Definition a_device : GPUDevice :=
  {| device_id := 2; addEventListener := Normal tt |}.

Definition an_adapter : GPUAdapter :=
  {| adapter_id := 1; requestDevice := Normal (Some a_device) |}.

Definition with_adapter : Navigator :=
  {| gpu := Normal (Some {| requestAdapter := Normal (Some an_adapter) |}) |}.

Definition without_adapter : Navigator :=
  {| gpu := Normal (Some {| requestAdapter := Normal None |}) |}.

End WebGPUDetector.

(* ===================================================================== *)
(** ** src/camera/capture.ts *)
(* ===================================================================== *)

Module CameraCapture.
Local Open Scope string_scope.

(** Browser objects are mutable and shared, so they live in a heap and
    the class holds references (addresses) to them. *)
Definition ref := N.

Inductive ReadyState := live | ended.

Record MediaTrackSettings := {
  settings_width : N;
  settings_height : N;
  settings_frameRate : N
}.

Record MediaStreamTrack := {
  kind : string;
  label : string;
  readyState : ReadyState;
  settings : MediaTrackSettings
}.

(** A [MediaStream] is the list of its tracks, in [getTracks()] order. *)
Record MediaStream := {
  tracks : list ref
}.

Record HTMLVideoElement := {
  srcObject : option ref;
  autoplay : bool;
  muted : bool;
  playsInline : bool
}.

Record Heap := {
  heap_tracks : gmap N MediaStreamTrack;
  heap_streams : gmap N MediaStream;
  heap_videos : gmap N HTMLVideoElement;
  console : list string
}.

(** The private members of [class CameraCapture]; [None] is [null]. *)
Record t := {
  stream : option ref;
  videoElement : option ref;
  canvas : option ref;
  context : option ref
}.

Definition new : t :=
  {| stream := None; videoElement := None; canvas := None; context := None |}.

(** [stream.getTracks()] *)
Definition getTracks (h : Heap) (s : ref) : list ref :=
  match heap_streams h !! s with
  | Some ms => tracks ms
  | None => []
  end.

Definition is_video (h : Heap) (tr : ref) : bool :=
  match heap_tracks h !! tr with
  | Some track => String.eqb (kind track) "video"
  | None => false
  end.

(** [stream.getVideoTracks()] *)
Definition getVideoTracks (h : Heap) (s : ref) : list ref :=
  List.filter (is_video h) (getTracks h s).

(** [getStream(): MediaStream | null] *)
Definition getStream (this : t) : option ref := stream this.

(** [getVideoTrack(): MediaStreamTrack | null] *)
Definition getVideoTrack (this : t) (h : Heap) : option ref :=
  match stream this with
  | None => None
  | Some s =>
      let videoTracks := getVideoTracks h s in
      if (0 <? length videoTracks)%nat then head videoTracks else None
  end.

(** [getStreamSettings(): MediaTrackSettings | null] *)
Definition getStreamSettings (this : t) (h : Heap) : option MediaTrackSettings :=
  match getVideoTrack this h with
  | Some videoTrack => settings <$> (heap_tracks h !! videoTrack)
  | None => None
  end.

(** [track.stop()] followed by the [console.log] of the loop body. *)
Definition stop_track (h : Heap) (tr : ref) : Heap :=
  match heap_tracks h !! tr with
  | Some track =>
      {| heap_tracks :=
           <[tr := {| kind := kind track; label := label track;
                      readyState := ended; settings := settings track |}]>
             (heap_tracks h);
         heap_streams := heap_streams h;
         heap_videos := heap_videos h;
         console :=
           List.app (console h)
             ["Stopped " ++ kind track ++ " track: " ++ label track] |}
  | None => h
  end.

(** [tracks.forEach(track => ...)] *)
Fixpoint forEach_stop (h : Heap) (trs : list ref) : Heap :=
  match trs with
  | [] => h
  | tr :: trs => forEach_stop (stop_track h tr) trs
  end.

(** [videoElement.srcObject = null] *)
Definition clear_srcObject (h : Heap) (v : ref) : Heap :=
  match heap_videos h !! v with
  | Some el =>
      {| heap_tracks := heap_tracks h;
         heap_streams := heap_streams h;
         heap_videos :=
           <[v := {| srcObject := None; autoplay := autoplay el;
                     muted := muted el; playsInline := playsInline el |}]>
             (heap_videos h);
         console := console h |}
  | None => h
  end.

(** [stop(): void] *)
Definition stop (this : t) (h : Heap) : t * Heap :=
  let '(this, h) :=
    match stream this with
    | Some s =>
        ({| stream := None; videoElement := videoElement this;
            canvas := canvas this; context := context this |},
         forEach_stop h (getTracks h s))
    | None => (this, h)
    end in
  let '(this, h) :=
    match videoElement this with
    | Some v =>
        ({| stream := stream this; videoElement := None;
            canvas := canvas this; context := context this |},
         clear_srcObject h v)
    | None => (this, h)
    end in
  ({| stream := stream this; videoElement := videoElement this;
      canvas := None; context := None |}, h).

End CameraCapture.

(* ===================================================================== *)
(** ** industrial-cv-poc-plan.md, Task 5.3: the ring buffer of the plan *)
(* ===================================================================== *)

Module OptimizedFrameProcessor.

(** [size_t]; the build targets WebAssembly (wasm32), where it has 32
    bits, and the two indices are only ever incremented. *)
Definition size_t_bits : N := 32.

Definition wrap (n : N) : N := (n mod 2 ^ size_t_bits)%N.

(** [static constexpr size_t BUFFER_SIZE = 4] *)
Definition BUFFER_SIZE : N := 4.

(** What a [WGPUTexture] of the buffer holds: the frame data last
    uploaded into it, if any. *)
Definition WGPUTexture := option (list N).

(** [struct RingBuffer] *)
Record RingBuffer := {
  textures : list WGPUTexture;
  writeIndex : N;
  readIndex : N
}.

(** [RingBuffer(WGPUDevice device, int width, int height)]: creates
    [BUFFER_SIZE] textures. *)
Definition RingBuffer_new : RingBuffer :=
  {| textures := replicate (N.to_nat BUFFER_SIZE) None;
     writeIndex := 0; readIndex := 0 |}.

(** The members of [class OptimizedFrameProcessor]; [lastFrameTime] in
    milliseconds. *)
Record t := {
  frameBuffer : RingBuffer;
  lastFrameTime : Z
}.

(** [uploadFrameToTexture(frameData, texture, width, height)] on the
    texture in slot [i]. *)
Definition uploadFrameToTexture (frameData : list N) (i : nat) (rb : RingBuffer)
  : RingBuffer :=
  {| textures := <[i := Some frameData]> (textures rb);
     writeIndex := writeIndex rb;
     readIndex := readIndex rb |}.

(** The slot the next frame is uploaded to:
    [textures[writeIdx % RingBuffer::BUFFER_SIZE]]. *)
Definition upload_slot (rb : RingBuffer) : nat :=
  N.to_nat (writeIndex rb mod BUFFER_SIZE).

Section Helpers.

(** The plan calls [shouldBatchProcess] and [batchProcessFrames] without
    defining them; [batch] stands for
    [if (shouldBatchProcess()) batchProcessFrames();].
    [updatePerformanceMetrics] touches only its own static counter. *)
Variable batch : t -> t.

(** [void processFrameOptimized(uint8_t* frameData, int width, int height)]
    called at time [now].  No test for a full buffer, no eviction and no
    dropped-frame counter: the slot is overwritten, and the function
    never stores to [readIndex]. *)
Definition processFrameOptimized (now : Z) (frameData : list N) (this : t) : t :=
  let elapsed := (now - lastFrameTime this)%Z in
  if (elapsed <? 33)%Z then this
  else
    let writeIdx := writeIndex (frameBuffer this) in
    let this :=
      {| frameBuffer :=
           uploadFrameToTexture frameData (upload_slot (frameBuffer this))
                                (frameBuffer this);
         lastFrameTime := lastFrameTime this |} in
    let this := batch this in
    {| frameBuffer :=
         {| textures := textures (frameBuffer this);
            writeIndex := wrap (writeIdx + 1);
            readIndex := readIndex (frameBuffer this) |};
       lastFrameTime := now |}.

End Helpers.

(** [processFrameOptimized] for each of [frames] in turn, one call every
    [period] milliseconds starting at time [now]. *)
Fixpoint feed (batch : t -> t) (period now : Z) (frames : list (list N))
    (this : t) : t :=
  match frames with
  | [] => this
  | frameData :: frames =>
      feed batch period (now + period)%Z frames
           (processFrameOptimized batch now frameData this)
  end.

Definition new : t :=
  {| frameBuffer := RingBuffer_new; lastFrameTime := 0 |}.

End OptimizedFrameProcessor.

(* ===================================================================== *)
(** ** More of the code in the repository: src/cpp (webgpu_utils),
       src/webgpu/detector.ts, src/camera/capture.ts and the plan's
       frame processor *)
(* ===================================================================== *)

Module WebGPUUtils.
Import FrameProcessor.
Local Open Scope string_scope.

Definition WGPUAdapter := N.

(** [bool isWebGPUAvailable()] *)
Definition isWebGPUAvailable : bool := true.

(** [std::string getAdapterInfo(WGPUAdapter adapter)] *)
Definition getAdapterInfo (adapter : WGPUAdapter) : string :=
  if is_null adapter then "No adapter available"
  else "WebGPU Adapter (C++ side)".

(** [WGPUDevice createDevice(WGPUAdapter adapter)] *)
Definition createDevice (adapter : WGPUAdapter) : WGPUDevice * list Output :=
  if is_null adapter then
    (nullptr, [Cerr "Cannot create device: No adapter provided"])
  else
    (nullptr, [Cout "Device creation requested from C++"]).

End WebGPUUtils.

Module WebGPUDetectorMore.
Import WebGPUDetector.
Local Open Scope string_scope.

(** [GPUAdapterInfo]: the fields [getAdapterInfo] reads. *)
Record GPUAdapterInfo := {
  vendor : string;
  architecture : string;
  info_device : string
}.

(** [GPUSupportedLimits]: the fields [getLimits] reads. *)
Record GPUSupportedLimits := {
  maxBufferSize : N;
  maxTextureDimension2D : N;
  maxComputeWorkgroupSizeX : N;
  maxComputeWorkgroupSizeY : N;
  maxComputeInvocationsPerWorkgroup : N
}.

(** [a || b] on strings: the empty string is falsy. *)
Definition or_else (a b : string) : string :=
  if String.eqb a "" then b else a.

Definition GPUShaderModule := N.
Definition GPUComputePipeline := N.

Section Browser.

(** What the browser answers for the properties and methods of an
    adapter or a device that [initialize] does not use: [adapter.info]
    ([None] is [undefined]), [adapter.limits],
    [device.createShaderModule] and [device.createComputePipeline]. *)
Variable info : GPUAdapter -> option GPUAdapterInfo.
Variable limits : GPUAdapter -> GPUSupportedLimits.
Variable createShaderModule : GPUDevice -> string -> Completion GPUShaderModule.
Variable createComputePipeline :
  GPUDevice -> GPUShaderModule -> Completion GPUComputePipeline.

(** [getAdapterInfo(): string] *)
Definition getAdapterInfo (this : t) : string :=
  match adapter this with
  | None => "No adapter information available"
  | Some a =>
      match info a with
      | None => "No adapter information available"
      | Some i =>
          or_else (vendor i) "Unknown" ++ " " ++ or_else (architecture i) ""
            ++ " - " ++ or_else (info_device i) "Unknown Device"
      end
  end.

(** [getLimits(): Record<string, number>], as the list of its entries. *)
Definition getLimits (this : t) : list (string * N) :=
  match adapter this with
  | None => []
  | Some a =>
      let l := limits a in
      [ ("maxBufferSize", maxBufferSize l);
        ("maxTextureDimension2D", maxTextureDimension2D l);
        ("maxComputeWorkgroupSizeX", maxComputeWorkgroupSizeX l);
        ("maxComputeWorkgroupSizeY", maxComputeWorkgroupSizeY l);
        ("maxComputeInvocationsPerWorkgroup",
         maxComputeInvocationsPerWorkgroup l) ]
  end.

(** The WGSL source of the test shader. *)
Definition shaderCode : string :=
  "
        @compute @workgroup_size(1)
        fn main(@builtin(global_invocation_id) global_id: vec3<u32>) {
          // Simple test compute shader
        }
      ".

(** [async createSimpleComputePipeline(): Promise<GPUComputePipeline | null>] *)
Definition createSimpleComputePipeline : M (option GPUComputePipeline) :=
  let! this := get_this in
  match device this with
  | None =>
      do! log (console_error "No WebGPU device available") in
      ret None
  | Some dev =>
      try_catch
        (let! shaderModule := eval (createShaderModule dev shaderCode) in
         let! computePipeline := eval (createComputePipeline dev shaderModule) in
         do! log (console_log "Simple compute pipeline created successfully") in
         ret (Some computePipeline))
        (fun _ =>
           do! log (console_error "Failed to create compute pipeline:") in
           ret None)
  end.

End Browser.

End WebGPUDetectorMore.

Module CameraCaptureMore.
Import CameraCapture.
Local Open Scope string_scope.

(** A value carried by a [throw] or a rejected promise, as far as the
    [catch] clause of [initialize] tells values apart: an [Error]
    ([error instanceof Error]), a string, another object with a [name]
    property, or anything else. *)
Inductive Thrown :=
| ThrownError (message : string)
| ThrownString (s : string)
| ThrownNamed (name : string)
| ThrownOther.

Inductive Completion (A : Type) :=
| Normal (a : A)
| Throw (e : Thrown).
Arguments Normal {A} a.
Arguments Throw {A} e.

(** [console.log], [console.warn] and [console.error] all append to the
    heap's console. *)
Definition log (msg : string) (h : Heap) : Heap :=
  {| heap_tracks := heap_tracks h;
     heap_streams := heap_streams h;
     heap_videos := heap_videos h;
     console := List.app (console h) [msg] |}.

(** ** [initialize] *)

Inductive FacingMode := user | environment.

Section Numbers.

(** JavaScript numbers are kept abstract: [falsy] tells 0 and NaN from
    the others, [num] is a numeric literal. *)
Variable Number : Type.
Variable falsy : Number -> bool.
Variable num : Z -> Number.

(** [interface CameraConstraints]; [None] is an absent property. *)
Record CameraConstraints := {
  c_width : option Number;
  c_height : option Number;
  c_frameRate : option Number;
  c_facingMode : option FacingMode;
  c_deviceId : option string
}.

(** [{ ideal: ..., min: ... }] *)
Record Range := {
  ideal : Number;
  min : Number
}.

(** The [MediaStreamConstraints] that [initialize] builds. *)
Record MediaStreamConstraints := {
  video_width : Range;
  video_height : Range;
  video_frameRate : Range;
  video_facingMode : FacingMode;
  video_deviceId : option string;
  audio : bool
}.

(** [navigator.mediaDevices]; [getUserMedia] is [None] when the property
    is missing, and otherwise tells how the returned promise settles for
    the given constraints ([Normal None] is a promise resolved with
    [null]). *)
Record MediaDevices := {
  getUserMedia : option (MediaStreamConstraints -> Completion (option ref))
}.

Record Navigator := {
  mediaDevices : option MediaDevices
}.

(** [interface CameraStatus] *)
Record CameraStatus := {
  available : bool;
  status_stream : option (option ref);
  status_error : option string
}.

(** [n || d] on an optional number. *)
Definition number_or (n : option Number) (d : Z) : Number :=
  match n with
  | Some n => if falsy n then num d else n
  | None => num d
  end.

(** [defaultConstraints], with the device id added when one is given
    (the empty string is falsy). *)
Definition defaultConstraints (constraints : CameraConstraints)
  : MediaStreamConstraints :=
  {| video_width := {| ideal := number_or (c_width constraints) 1280;
                       min := num 640 |};
     video_height := {| ideal := number_or (c_height constraints) 720;
                        min := num 480 |};
     video_frameRate := {| ideal := number_or (c_frameRate constraints) 30;
                           min := num 15 |};
     video_facingMode :=
       match c_facingMode constraints with
       | Some m => m
       | None => environment
       end;
     video_deviceId :=
       match c_deviceId constraints with
       | Some id => if String.eqb id "" then None else Some id
       | None => None
       end;
     audio := false |}.

(** The error message the [catch] clause computes. *)
Definition errorMessage (e : Thrown) : string :=
  match e with
  | ThrownError message => message
  | ThrownString s => s
  | ThrownNamed name =>
      if String.eqb name "NotAllowedError" then "Camera access denied by user"
      else if String.eqb name "NotFoundError" then "No camera found"
      else if String.eqb name "NotReadableError" then "Camera is already in use"
      else if String.eqb name "OverconstrainedError"
           then "Camera constraints cannot be satisfied"
      else if String.eqb name "SecurityError"
           then "Camera access blocked by security policy"
      else if String.eqb name "" then "Camera error" else name
  | ThrownOther => "Unknown camera error"
  end.

Definition set_stream (s : option ref) (this : t) : t :=
  {| stream := s; videoElement := videoElement this;
     canvas := canvas this; context := context this |}.

Definition not_supported : CameraStatus :=
  {| available := false; status_stream := None;
     status_error := Some "Camera API not supported in this browser" |}.

(** The [try] block of [initialize]. *)
Definition initialize_try (navigator : Navigator)
    (constraints : CameraConstraints) (this : t) (h : Heap)
  : Completion CameraStatus * t * Heap :=
  match mediaDevices navigator with
  | None => (Normal not_supported, this, h)
  | Some md =>
      match getUserMedia md with
      | None => (Normal not_supported, this, h)
      | Some request =>
          let h := log "Requesting camera access..." h in
          match request (defaultConstraints constraints) with
          | Throw e => (Throw e, this, h)
          | Normal s =>
              let this := set_stream s this in
              match s with
              | None =>
                  (Normal {| available := false; status_stream := None;
                             status_error :=
                               Some "Failed to obtain camera stream" |},
                   this, h)
              | Some _ =>
                  let h := log "Camera stream obtained successfully" h in
                  let h := log "Stream tracks:" h in
                  (Normal {| available := true;
                             status_stream := Some (stream this);
                             status_error := None |},
                   this, h)
              end
          end
      end
  end.

(** [async initialize(constraints = {}): Promise<CameraStatus>] *)
Definition initialize (navigator : Navigator)
    (constraints : CameraConstraints) (this : t) (h : Heap)
  : Completion CameraStatus * t * Heap :=
  match initialize_try navigator constraints this h with
  | (Normal s, this, h) => (Normal s, this, h)
  | (Throw e, this, h) =>
      let h := log "Camera initialization failed:" h in
      (Normal {| available := false; status_stream := None;
                 status_error := Some (errorMessage e) |},
       this, h)
  end.

End Numbers.

(** ** Video element, canvas and frame capture *)

Definition set_video (v : ref) (el : HTMLVideoElement) (h : Heap) : Heap :=
  {| heap_tracks := heap_tracks h;
     heap_streams := heap_streams h;
     heap_videos := <[v := el]> (heap_videos h);
     console := console h |}.

(** [createVideoElement(): HTMLVideoElement]; [document.createElement]
    yields an element at an address not yet in use. *)
Definition createVideoElement (this : t) (h : Heap) : ref * t * Heap :=
  match videoElement this with
  | Some v => (v, this, h)
  | None =>
      let v := fresh (dom (heap_videos h)) in
      (v,
       {| stream := stream this; videoElement := Some v;
          canvas := canvas this; context := context this |},
       set_video v {| srcObject := stream this; autoplay := true;
                      muted := true; playsInline := true |} h)
  end.

Record HTMLCanvasElement := {
  canvas_width : N;
  canvas_height : N
}.

Record ImageData := {
  image_width : N;
  image_height : N;
  image_data : list N
}.

(** A 2d context, as the way its two calls end in this environment for
    the video element and the size they are given. *)
Record CanvasRenderingContext2D := {
  drawImage : ref -> N -> N -> Completion unit;
  getImageData : N -> N -> Completion ImageData
}.

Definition Blob := list N.

(** The browser objects of [CameraCapture.Heap] together with the
    canvases, the 2d contexts, the [readyState] of the video elements
    and the way [canvas.toBlob] ends for a canvas. *)
Record Dom := {
  heap : Heap;
  heap_canvases : gmap N HTMLCanvasElement;
  heap_contexts : gmap N CanvasRenderingContext2D;
  readyState_of : gmap N N;
  toBlob : ref -> Completion (option Blob)
}.

Definition with_heap (h : Heap) (d : Dom) : Dom :=
  {| heap := h; heap_canvases := heap_canvases d;
     heap_contexts := heap_contexts d;
     readyState_of := readyState_of d; toBlob := toBlob d |}.

Definition log_dom (msg : string) (d : Dom) : Dom :=
  with_heap (log msg (heap d)) d.

(** [HTMLMediaElement.HAVE_ENOUGH_DATA] *)
Definition HAVE_ENOUGH_DATA : N := 4.

Definition video_readyState (d : Dom) (v : ref) : N :=
  default 0%N (readyState_of d !! v).

(** An assignment to [canvas.width] or [canvas.height].  The attribute
    is an [unsigned long] that reflects the content attribute: the
    number assigned is converted by ToUint32 (here already done, [u] is
    its result), and a result above 2147483647 is replaced by the
    attribute's default value. *)
Definition reflect_unsigned_long (dflt : N) (u : N) : N :=
  if (u <=? 2147483647)%N then u else dflt.

(** The default values of a canvas's [width] and [height]. *)
Definition default_canvas_width : N := 300.
Definition default_canvas_height : N := 150.

Section CanvasNumbers.

(** JavaScript numbers are kept abstract, as in [initialize]: [num] is a
    numeric literal, [ToUint32] the conversion of a number to an
    [unsigned long] (truncation, then the remainder modulo 2^32; 0 for
    NaN and the infinities). *)
Variable Number : Type.
Variable num : Z -> Number.
Variable ToUint32 : Number -> N.

(** [setupCanvas(width = 640, height = 480): HTMLCanvasElement];
    an argument is [None] when it is omitted or [undefined];
    [getContext] is what [canvas.getContext('2d')] returns for the new
    canvas, [None] for [null]. *)
Definition setupCanvas (getContext : option CanvasRenderingContext2D)
    (width height : option Number) (this : t) (d : Dom) : ref * t * Dom :=
  let width := default (num 640) width in
  let height := default (num 480) height in
  let c := fresh (dom (heap_canvases d)) in
  let x := fresh (dom (heap_contexts d)) in
  (c,
   {| stream := stream this; videoElement := videoElement this;
      canvas := Some c;
      context := match getContext with Some _ => Some x | None => None end |},
   {| heap := heap d;
      heap_canvases :=
        <[c := {| canvas_width :=
                    reflect_unsigned_long default_canvas_width (ToUint32 width);
                  canvas_height :=
                    reflect_unsigned_long default_canvas_height (ToUint32 height)
               |}]> (heap_canvases d);
      heap_contexts :=
        match getContext with
        | Some ctx => <[x := ctx]> (heap_contexts d)
        | None => heap_contexts d
        end;
      readyState_of := readyState_of d;
      toBlob := toBlob d |}).

End CanvasNumbers.

(** The [try] block of [captureFrame]; a reference the heap does not
    hold cannot arise in the program and counts as a throw. *)
Definition captureFrame_try (v c x : ref) (d : Dom) : Completion ImageData :=
  match heap_canvases d !! c, heap_contexts d !! x with
  | Some cv, Some ctx =>
      match drawImage ctx v (canvas_width cv) (canvas_height cv) with
      | Throw e => Throw e
      | Normal _ => getImageData ctx (canvas_width cv) (canvas_height cv)
      end
  | _, _ => Throw ThrownOther
  end.

(** [captureFrame(): ImageData | null] *)
Definition captureFrame (this : t) (d : Dom) : option ImageData * Dom :=
  match videoElement this, canvas this, context this with
  | Some v, Some c, Some x =>
      if negb (N.eqb (video_readyState d v) HAVE_ENOUGH_DATA) then
        (None, log_dom "Video not ready for frame capture" d)
      else
        match captureFrame_try v c x d with
        | Normal imageData => (Some imageData, d)
        | Throw _ => (None, log_dom "Failed to capture frame:" d)
        end
  | _, _, _ => (None, log_dom "Video element or canvas not set up" d)
  end.

(** [async takePhoto(): Promise<Blob | null>]; a throw of [toBlob]
    inside the promise's executor rejects the promise. *)
Definition takePhoto (this : t) (d : Dom) : Completion (option Blob) * Dom :=
  match canvas this with
  | None => (Normal None, log_dom "Canvas not set up" d)
  | Some c =>
      match captureFrame this d with
      | (None, d) => (Normal None, d)
      | (Some _, d) => (toBlob d c, d)
      end
  end.

(** One firing of the timer that [startFrameProcessing] sets up: the
    frame handed to the callback, if the callback is called at all. *)
Definition processFrame_tick (this : t) (d : Dom) : option ImageData * Dom :=
  captureFrame this d.

(** [stop()] on the larger state. *)
Definition stop_dom (this : t) (d : Dom) : t * Dom :=
  let '(this, h) := stop this (heap d) in (this, with_heap h d).

(** [track.stop()] on the track object itself. *)
Definition end_track (track : MediaStreamTrack) : MediaStreamTrack :=
  {| kind := kind track; label := label track;
     readyState := ended; settings := settings track |}.

Definition stop_message (track : MediaStreamTrack) : string :=
  "Stopped " ++ kind track ++ " track: " ++ label track.

End CameraCaptureMore.

Module CameraCaptureExamples.
Import CameraCapture CameraCaptureMore.
Local Open Scope string_scope.

(** A heap with one stream of an audio and a video track, both live,
    and a camera object that holds the stream and a video element. *)
Definition hd_settings : MediaTrackSettings :=
  {| settings_width := 1280; settings_height := 720; settings_frameRate := 30 |}.

Definition two_track_heap : Heap :=
  {| heap_tracks :=
       {[ 1%N := {| kind := "audio"; label := "mic"; readyState := live;
                    settings := hd_settings |};
          2%N := {| kind := "video"; label := "cam"; readyState := live;
                    settings := hd_settings |} ]};
     heap_streams := {[ 7%N := {| tracks := [1%N; 2%N] |} ]};
     heap_videos := {[ 3%N := {| srcObject := Some 7%N; autoplay := true;
                                 muted := true; playsInline := true |} ]};
     console := [] |}.

Definition streaming : t :=
  {| stream := Some 7%N; videoElement := Some 3%N;
     canvas := None; context := None |}.

(** A 2d context whose calls succeed and return a black image of the
    size asked for. *)
Definition black_context : CanvasRenderingContext2D :=
  {| drawImage := fun _ _ _ => Normal tt;
     getImageData := fun w h =>
       Normal {| image_width := w; image_height := h;
                 image_data := replicate (N.to_nat (4 * w * h)) 0%N |} |}.

(** [ToUint32] on the integer-valued numbers. *)
Definition ToUint32_integer (z : Z) : N := Z.to_N (z mod 2 ^ 32).

Definition ready_dom : Dom :=
  {| heap := two_track_heap;
     heap_canvases := ∅;
     heap_contexts := ∅;
     readyState_of := {[ 3%N := HAVE_ENOUGH_DATA ]};
     toBlob := fun _ => Normal None |}.

End CameraCaptureExamples.

Module OptimizedFrameProcessorMore.
Import OptimizedFrameProcessor.

(** [processFrameOptimized] for a sequence of calls, each with the time
    it is made at and its frame data. *)
Definition processAll (batch : t -> t) (calls : list (Z * list N)) (this : t) : t :=
  fold_left (fun this call => processFrameOptimized batch (fst call) (snd call) this)
            calls this.


End OptimizedFrameProcessorMore.

(* ===================================================================== *)
(** ** The detection core: data model *)
(* ===================================================================== *)

Module Core.

(** Modelled from the spec: the [Frame] record of the data model (no
    frame type exists in the sources; the plan passes raw
    [uint8_t* frameData, int width, int height]). *)
Record Frame := {
  frame_id : nat;
  timestamp : N;
  frame_width : N;
  frame_height : N;
  pixels : list N
}.

(** Modelled from the spec: what the camera collaborator pushes at
    frame ingestion (section 6), a frame without its id, which the
    pipeline assigns. *)
Record FrameData := {
  data_timestamp : N;
  data_width : N;
  data_height : N;
  data_pixels : list N
}.

Definition mkFrame (id : nat) (d : FrameData) : Frame :=
  {| frame_id := id; timestamp := data_timestamp d;
     frame_width := data_width d; frame_height := data_height d;
     pixels := data_pixels d |}.

(** Modelled from the spec: a bounding box (top-left corner, width and
    height, in cells), as in the plan's [struct Defect]. *)
Record BBox := {
  box_x : Z;
  box_y : Z;
  box_w : Z;
  box_h : Z
}.

(** Modelled from the spec: [CandidateRegion] of the data model. *)
Record CandidateRegion := {
  label_id : nat;
  region_bbox : BBox;
  pixel_area : N;
  mean_deviation : N
}.

(** Modelled from the spec: [Defect] of the data model.  The plan's
    [struct Defect] has only [x, y, width, height, confidence, type];
    confidence is kept as the numerator of a fraction of 1000. *)
Record Defect := {
  defect_id : nat;
  defect_bbox : BBox;
  defect_area : N;
  confidence_permille : N;
  first_seen_frame : nat;
  last_seen_frame : nat
}.

(** Modelled from the spec: the [status] of a [DetectionResult]. *)
Inductive Status := Ok | AlignmentFailed | Dropped.

(** Modelled from the spec: [DetectionResult] of the data model. *)
Record DetectionResult := {
  result_frame_id : nat;
  defects : list Defect;
  processing_latency : N;
  status : Status
}.

End Core.

(* ===================================================================== *)
(** ** Frame ring buffer *)
(* ===================================================================== *)

Module FrameRingBuffer.
Import Core.

(** [static constexpr size_t BUFFER_SIZE = 4] of the plan's
    [struct RingBuffer], the default capacity. *)
Definition BUFFER_SIZE : nat := 4.

(** Modelled from the spec: the frame ring buffer of section 4.1.  The
    plan document declares only the layout ([textures], [writeIndex],
    [readIndex], [BUFFER_SIZE]) and a caller that writes slot
    [writeIdx % BUFFER_SIZE] and then stores [writeIdx + 1]; [push]
    with its eviction, the dropped-frame counter and the consuming side
    are missing and follow the spec's words.  The two indices count
    frames written and frames consumed-or-evicted and are never
    reduced; a frame with index [i] lives in slot [i mod capacity]. *)
Record t := {
  capacity : nat;
  slots : list (option Frame);
  writeIndex : nat;
  readIndex : nat;
  droppedFrameCount : nat
}.

(** Modelled from the spec: an empty buffer of fixed capacity [C]. *)
Definition create (C : nat) : t :=
  {| capacity := C; slots := replicate C None;
     writeIndex := 0; readIndex := 0; droppedFrameCount := 0 |}.

(** Number of unconsumed frames held. *)
Definition occupancy (rb : t) : nat := writeIndex rb - readIndex rb.

Definition is_full (rb : t) : bool := capacity rb <=? occupancy rb.

Definition slot_of (rb : t) (i : nat) : nat := i mod capacity rb.

(** The slot [push] writes, and the slot of the oldest unconsumed frame. *)
Definition write_slot (rb : t) : nat := slot_of rb (writeIndex rb).
Definition oldest_slot (rb : t) : nat := slot_of rb (readIndex rb).

Definition frame_at (rb : t) (i : nat) : option Frame :=
  match slots rb !! slot_of rb i with
  | Some (Some f) => Some f
  | _ => None
  end.

(** The unconsumed frames, oldest first. *)
Definition unconsumed (rb : t) : list Frame :=
  omap (frame_at rb) (seq (readIndex rb) (occupancy rb)).

(** Modelled from the spec: drop-oldest eviction; the oldest unconsumed
    frame is given up and the dropped-frame counter goes up by one. *)
Definition evict_oldest (rb : t) : t :=
  {| capacity := capacity rb; slots := slots rb;
     writeIndex := writeIndex rb;
     readIndex := S (readIndex rb);
     droppedFrameCount := S (droppedFrameCount rb) |}.

(** The buffer [push] writes into: the given one, or the given one
    without its oldest frame when it is full. *)
Definition make_room (rb : t) : t :=
  if is_full rb then evict_oldest rb else rb.

(** Modelled from the spec: [push(frame)] inserts at the write
    position, after evicting the oldest unconsumed frame when the
    buffer is full. *)
Definition push (f : Frame) (rb : t) : t :=
  let rb := make_room rb in
  {| capacity := capacity rb;
     slots := <[write_slot rb := Some f]> (slots rb);
     writeIndex := S (writeIndex rb);
     readIndex := readIndex rb;
     droppedFrameCount := droppedFrameCount rb |}.

(** Modelled from the spec: the consuming side, which hands out the
    oldest unconsumed frame.  The lifetime of the handle ([acquire] /
    release) is not part of this model. *)
Definition pop (rb : t) : option Frame * t :=
  if occupancy rb =? 0 then (None, rb)
  else (frame_at rb (readIndex rb),
        {| capacity := capacity rb; slots := slots rb;
           writeIndex := writeIndex rb;
           readIndex := S (readIndex rb);
           droppedFrameCount := droppedFrameCount rb |}).

Inductive Op :=
| Push (f : Frame)
| Pop.

Definition step (rb : t) (op : Op) : t :=
  match op with
  | Push f => push f rb
  | Pop => snd (pop rb)
  end.

(** The buffer after a sequence of operations, oldest first. *)
Definition run (ops : list Op) (rb : t) : t := fold_left step ops rb.

Definition push_all (fs : list Frame) (rb : t) : t :=
  fold_left (fun rb f => push f rb) fs rb.

(** The invariant of every buffer [run] reaches from [create C]. *)
Record wf (rb : t) : Prop := {
  wf_capacity : 0 < capacity rb;
  wf_slots : length (slots rb) = capacity rb;
  wf_order : readIndex rb <= writeIndex rb;
  wf_bound : occupancy rb <= capacity rb;
  wf_frames : forall i, readIndex rb <= i < writeIndex rb ->
                        is_Some (frame_at rb i)
}.

End FrameRingBuffer.

(* ===================================================================== *)
(** ** Pipeline scheduler: admission and in-order delivery *)
(* ===================================================================== *)

Module Scheduler.
Import Core.

(** Modelled from the spec: the part of the pipeline scheduler
    (sections 4.8 and 5) that admits frames and delivers results; no
    scheduler exists in the sources.  Frames get their id at ingestion
    from a counter, wait in the ring buffer, and are admitted oldest
    first while fewer than [maxInFlightFrames] are being processed.
    [awaiting] lists the admitted frames whose result has not been
    delivered, in admission order; [reorder] is the reordering buffer
    of completed-but-not-yet-deliverable results; [delivered] is what
    the external consumer has received, oldest first. *)
Record t := {
  ring : FrameRingBuffer.t;
  nextFrameId : nat;
  maxInFlightFrames : nat;
  awaiting : list nat;
  reorder : gmap nat DetectionResult;
  delivered : list DetectionResult
}.

(** Modelled from the spec: the scheduler at start-up, configured with
    [ringBufferCapacity] and [maxInFlightFrames]. *)
Definition init (ringBufferCapacity maxInFlight : nat) : t :=
  {| ring := FrameRingBuffer.create ringBufferCapacity;
     nextFrameId := 0;
     maxInFlightFrames := maxInFlight;
     awaiting := [];
     reorder := ∅;
     delivered := [] |}.

Definition resolved (buf : gmap nat DetectionResult) (id : nat) : bool :=
  bool_decide (is_Some (buf !! id)).

(** Frames admitted and still being processed. *)
Definition inFlight (s : t) : nat :=
  length (List.filter (fun id => negb (resolved (reorder s) id)) (awaiting s)).

(** Modelled from the spec: frame ingestion; the frame takes the next
    id and is pushed into the ring buffer (drop-oldest when full). *)
Definition ingest (d : FrameData) (s : t) : t :=
  {| ring := FrameRingBuffer.push (mkFrame (nextFrameId s) d) (ring s);
     nextFrameId := S (nextFrameId s);
     maxInFlightFrames := maxInFlightFrames s;
     awaiting := awaiting s;
     reorder := reorder s;
     delivered := delivered s |}.

(** Modelled from the spec: admission of the oldest unconsumed frame,
    refused while [maxInFlightFrames] frames are in flight. *)
Definition admission (s : t) : t :=
  if inFlight s <? maxInFlightFrames s then
    match FrameRingBuffer.pop (ring s) with
    | (Some f, ring') =>
        {| ring := ring';
           nextFrameId := nextFrameId s;
           maxInFlightFrames := maxInFlightFrames s;
           awaiting := awaiting s ++ [frame_id f];
           reorder := reorder s;
           delivered := delivered s |}
    | (None, _) => s
    end
  else s.

(** Modelled from the spec: results are handed to the consumer from
    the front of [awaiting] for as long as the front frame is resolved
    ("out-of-order completions are buffered until prior frame_ids are
    resolved"). *)
Fixpoint flush (ids : list nat) (buf : gmap nat DetectionResult)
    (out : list DetectionResult)
  : list nat * gmap nat DetectionResult * list DetectionResult :=
  match ids with
  | [] => ([], buf, out)
  | id :: rest =>
      match buf !! id with
      | Some r => flush rest (delete id buf) (out ++ [r])
      | None => (ids, buf, out)
      end
  end.

(** Modelled from the spec: an admitted frame reaches a terminal state
    (Done, Failed or Dropped; all count as resolved) and its result
    enters the reordering buffer.  A frame that is not awaited, or is
    already resolved, is ignored. *)
Definition resolve (r : DetectionResult) (s : t) : t :=
  let id := result_frame_id r in
  if bool_decide (id ∈ awaiting s) && negb (resolved (reorder s) id) then
    let '(ids, buf, out) :=
      flush (awaiting s) (<[id := r]> (reorder s)) (delivered s) in
    {| ring := ring s;
       nextFrameId := nextFrameId s;
       maxInFlightFrames := maxInFlightFrames s;
       awaiting := ids;
       reorder := buf;
       delivered := out |}
  else s.

Inductive Event :=
| Ingest (d : FrameData)
| Admission
| Resolve (r : DetectionResult).

Definition step (s : t) (e : Event) : t :=
  match e with
  | Ingest d => ingest d s
  | Admission => admission s
  | Resolve r => resolve r s
  end.

Definition run (es : list Event) (s : t) : t := fold_left step es s.

(** Frame ids the consumer has received, oldest first. *)
Definition delivered_ids (s : t) : list nat :=
  map result_frame_id (delivered s).

(** Frame ids admitted so far, in admission order. *)
Definition admitted_ids (s : t) : list nat := delivered_ids s ++ awaiting s.

(** Admitted ids followed by the ids still waiting in the ring buffer. *)
Definition known_ids (s : t) : list nat :=
  admitted_ids s ++ map frame_id (FrameRingBuffer.unconsumed (ring s)).

(** What every state reached from [init] satisfies. *)
Record inv (s : t) : Prop := {
  inv_ring : FrameRingBuffer.wf (ring s);
  inv_sorted : StronglySorted lt (known_ids s);
  inv_fresh : Forall (fun id => id < nextFrameId s) (known_ids s);
  inv_label : forall id r, reorder s !! id = Some r ->
                           result_frame_id r = id /\ id ∈ awaiting s;
  inv_head : forall id, head (awaiting s) = Some id -> reorder s !! id = None
}.
(** A run in which the three admitted frames complete in the order
    2, 0, 1. *)
Definition blank : FrameData :=
  {| data_timestamp := 0; data_width := 2; data_height := 1;
     data_pixels := [0%N; 0%N] |}.

Definition done_result (id : nat) : DetectionResult :=
  {| result_frame_id := id; defects := []; processing_latency := 7;
     status := Ok |}.

Definition out_of_order : list Event :=
  [Ingest blank; Ingest blank; Ingest blank;
   Admission; Admission; Admission;
   Resolve (done_result 2); Resolve (done_result 0); Resolve (done_result 1)].

End Scheduler.

(* ===================================================================== *)
(** ** Temporal aggregator *)
(* ===================================================================== *)

Module Aggregator.
Import Core.

(** Modelled from the spec: the states of a tracked defect. *)
Inductive Phase := Pending | Confirmed | Retired.

(** Modelled from the spec: a tracked defect of section 4.7 (no
    aggregator exists in the sources).  [hits] counts the consecutive
    most recent frames with a matching region, [misses] the
    consecutive most recent frames without one. *)
Record Track := {
  defect : Defect;
  phase : Phase;
  hits : nat;
  misses : nat
}.

(** Modelled from the spec: the aggregator's share of the
    configuration surface (section 6), with the minimum overlap of a
    match. *)
Record Config := {
  confirmFrameCount : nat;
  retireFrameCount : nat;
  minOverlap : N
}.

(** [confirmFrameCount] defaults to 3. *)
Definition default_confirmFrameCount : nat := 3.

(** Modelled from the spec: the regions extracted from one frame, as
    they reach the aggregator. *)
Record FrameRegions := {
  fr_id : nat;
  fr_regions : list CandidateRegion;
  fr_latency : N
}.

(** Modelled from the spec: the aggregator's state, the tracked defects
    and the id of the next new one. *)
Record t := {
  tracks : list Track;
  nextDefectId : nat
}.

Definition init : t := {| tracks := []; nextDefectId := 0 |}.

Definition is_confirmed (tr : Track) : bool :=
  match phase tr with Confirmed => true | _ => false end.

Definition is_retired (tr : Track) : bool :=
  match phase tr with Retired => true | _ => false end.

Definition track_id (tr : Track) : nat := defect_id (defect tr).

Section Policy.
(** The spec fixes neither the overlap measure nor the confidence
    formula; both are parameters. *)
Variable overlap : BBox -> BBox -> N.
Variable confidence : CandidateRegion -> N.
Variable cfg : Config.

(** Index and element of the region that overlaps [b] most (the
    first one among equals). *)
Fixpoint argmax (b : BBox) (rs : list CandidateRegion)
  : option (nat * CandidateRegion) :=
  match rs with
  | [] => None
  | r :: rs =>
      match argmax b rs with
      | Some (i, r') =>
          if (overlap b (region_bbox r) <? overlap b (region_bbox r'))%N
          then Some (S i, r') else Some (0, r)
      | None => Some (0, r)
      end
  end.

(** Modelled from the spec: "greatest overlap above a minimum
    fraction wins the match". *)
Definition find_match (b : BBox) (rs : list CandidateRegion)
  : option (nat * CandidateRegion) :=
  match argmax b rs with
  | Some (i, r) =>
      if (minOverlap cfg <? overlap b (region_bbox r))%N
      then Some (i, r) else None
  | None => None
  end.

(** Modelled from the spec: Pending -> Confirmed once the region has
    appeared in [confirmFrameCount] consecutive frames. *)
Definition promote (p : Phase) (hits' : nat) : Phase :=
  match p with
  | Pending => if confirmFrameCount cfg <=? hits' then Confirmed else Pending
  | _ => p
  end.

(** Modelled from the spec: Confirmed -> Retired after
    [retireFrameCount] consecutive frames without a matching region.
    The spec's data model retires any defect "when absent for a
    configured number of frames", so a Pending one is retired alike. *)
Definition demote (p : Phase) (misses' : nat) : Phase :=
  if retireFrameCount cfg <=? misses' then Retired else p.

(** A tracked defect meets region [r] in frame [k]. *)
Definition matched (k : nat) (tr : Track) (r : CandidateRegion) : Track :=
  {| defect := {| defect_id := defect_id (defect tr);
                  defect_bbox := region_bbox r;
                  defect_area := pixel_area r;
                  confidence_permille := confidence r;
                  first_seen_frame := first_seen_frame (defect tr);
                  last_seen_frame := k |};
     phase := promote (phase tr) (S (hits tr));
     hits := S (hits tr);
     misses := 0 |}.

(** A tracked defect finds no region in the frame; the run of
    consecutive frames is broken. *)
Definition missed (tr : Track) : Track :=
  {| defect := defect tr;
     phase := demote (phase tr) (S (misses tr));
     hits := 0;
     misses := S (misses tr) |}.

(** Modelled from the spec: "Unmatched new CandidateRegions create a
    new Pending Defect". *)
Definition new_track (k id : nat) (r : CandidateRegion) : Track :=
  {| defect := {| defect_id := id;
                  defect_bbox := region_bbox r;
                  defect_area := pixel_area r;
                  confidence_permille := confidence r;
                  first_seen_frame := k;
                  last_seen_frame := k |};
     phase := promote Pending 1;
     hits := 1;
     misses := 0 |}.

(** Each tracked defect in turn takes its best region out of the
    regions that are left. *)
Fixpoint match_tracks (k : nat) (ts : list Track) (rs : list CandidateRegion)
  : list Track * list CandidateRegion :=
  match ts with
  | [] => ([], rs)
  | tr :: ts =>
      match find_match (defect_bbox (defect tr)) rs with
      | Some (i, r) =>
          let '(ts', rest) := match_tracks k ts (delete i rs) in
          (matched k tr r :: ts', rest)
      | None =>
          let '(ts', rest) := match_tracks k ts rs in
          (missed tr :: ts', rest)
      end
  end.

Fixpoint spawn (k id : nat) (rs : list CandidateRegion) : list Track :=
  match rs with
  | [] => []
  | r :: rs => new_track k id r :: spawn k (S id) rs
  end.

(** Modelled from the spec: "Only Confirmed Defects are included in
    the DetectionResult's defect list". *)
Definition report (fr : FrameRegions) (ts : list Track) : DetectionResult :=
  {| result_frame_id := fr_id fr;
     defects := map defect (List.filter is_confirmed ts);
     processing_latency := fr_latency fr;
     status := Ok |}.

(** One frame through the aggregator. *)
Definition step (fr : FrameRegions) (st : t) : DetectionResult * t :=
  let '(ts, rest) := match_tracks (fr_id fr) (tracks st) (fr_regions fr) in
  let ts := List.filter (fun tr => negb (is_retired tr))
              (ts ++ spawn (fr_id fr) (nextDefectId st) rest) in
  (report fr ts,
   {| tracks := ts; nextDefectId := nextDefectId st + length rest |}).

(** The results of a sequence of frames, and the state after it. *)
Fixpoint run (frs : list FrameRegions) (st : t) : list DetectionResult * t :=
  match frs with
  | [] => ([], st)
  | fr :: frs =>
      let '(res, st) := step fr st in
      let '(ress, st) := run frs st in
      (res :: ress, st)
  end.

(** Region [b] appears in frame number [k] of the input. *)
Definition appears_at (frs : list FrameRegions) (k : nat) (b : BBox) : Prop :=
  exists fr r, frs !! k = Some fr /\ r ∈ fr_regions fr /\ region_bbox r = b.

(** Successive boxes overlap above the minimum. *)
Fixpoint chain (bs : list BBox) : Prop :=
  match bs with
  | [] => True
  | b :: bs' =>
      match bs' with
      | [] => True
      | b' :: _ => (minOverlap cfg < overlap b b')%N /\ chain bs'
      end
  end.

(** The boxes [bs] appear in the consecutive frames [start],
    [start + 1], ... at overlapping locations. *)
Definition streak (frs : list FrameRegions) (start : nat) (bs : list BBox) : Prop :=
  (forall j b, bs !! j = Some b -> appears_at frs (start + j) b) /\ chain bs.


(** The aggregator after frame number [j] of the input. *)
Definition state_after (frs : list FrameRegions) (j : nat) : t :=
  snd (run (take (S j) frs) init).

(** After frame number [j] the tracked defect [id] is at box [b], and
    that frame is the [h]-th consecutive one in which it met a region. *)
Definition tracked_at (frs : list FrameRegions) (j id : nat) (b : BBox) (h : nat)
  : Prop :=
  exists tr,
    tr ∈ tracks (state_after frs j) /\
    track_id tr = id /\
    defect_bbox (defect tr) = b /\
    hits tr = h /\
    misses tr = 0.

(** The tracked defect [id] met the boxes [bs] in the consecutive
    frames [start], [start + 1], ..., as its first, second, ...
    consecutive frame. *)
Definition followed (frs : list FrameRegions) (id start : nat) (bs : list BBox)
  : Prop :=
  forall j b, bs !! j = Some b -> tracked_at frs (start + j) id b (S j).

(** In [confirmFrameCount] consecutive frames, all among the first
    [upto] frames of the input, the tracked defect [id] met regions at
    overlapping locations. *)
Definition confirmed_evidence (frs : list FrameRegions) (id upto : nat) : Prop :=
  exists start bs,
    confirmFrameCount cfg <= length bs /\
    start + length bs <= upto /\
    streak frs start bs /\
    followed frs id start bs.

(** In the [hits] most recent frames the tracked defect met regions at
    overlapping locations, the last of them where it is now. *)
Definition recent_run (frs : list FrameRegions) (tr : Track) : Prop :=
  hits tr <= length frs /\
  exists bs,
    length bs = hits tr /\
    streak frs (length frs - hits tr) bs /\
    followed frs (track_id tr) (length frs - hits tr) bs /\
    (hits tr <> 0 -> last bs = Some (defect_bbox (defect tr))).

(** What holds of every tracked defect after the frames [frs]. *)
Record track_ok (frs : list FrameRegions) (tr : Track) : Prop := {
  ok_recent : recent_run frs tr;
  ok_confirmed :
    phase tr = Confirmed -> confirmed_evidence frs (track_id tr) (length frs)
}.

(** What holds of the aggregator after the frames [frs]. *)
Record inv (frs : list FrameRegions) (st : t) : Prop := {
  inv_tracks : Forall (track_ok frs) (tracks st);
  inv_ids : Forall (fun tr => track_id tr < nextDefectId st) (tracks st);
  inv_nodup : NoDup (map track_id (tracks st))
}.
End Policy.

(** An overlap measure to run the model with: the area two boxes share,
    per thousand of the area of the smaller one. *)
Definition shared_area (a b : BBox) : Z :=
  (let w := Z.min (box_x a + box_w a) (box_x b + box_w b)
            - Z.max (box_x a) (box_x b) in
   let h := Z.min (box_y a + box_h a) (box_y b + box_h b)
            - Z.max (box_y a) (box_y b) in
   Z.max 0 w * Z.max 0 h)%Z.

Definition overlap_permille (a b : BBox) : N :=
  let smaller := (Z.min (box_w a * box_h a) (box_w b * box_h b))%Z in
  if (smaller <=? 0)%Z then 0%N
  else Z.to_N (shared_area a b * 1000 / smaller)%Z.

(** Scenario 2 of the spec: a 10x10 region at (50,50) in three
    consecutive frames, with the default [confirmFrameCount]. *)
Definition blob : CandidateRegion :=
  {| label_id := 1;
     region_bbox := {| box_x := 50; box_y := 50; box_w := 10; box_h := 10 |};
     pixel_area := 100;
     mean_deviation := 40 |}.

Definition blob_frame (id : nat) : FrameRegions :=
  {| fr_id := id; fr_regions := [blob]; fr_latency := 5 |}.

Definition three_frames : list FrameRegions :=
  [blob_frame 0; blob_frame 1; blob_frame 2].

Definition demo_cfg : Config :=
  {| confirmFrameCount := default_confirmFrameCount;
     retireFrameCount := 2;
     minOverlap := 500 |}.

Definition full_confidence (r : CandidateRegion) : N := 1000%N.

Definition blob_defect : Defect :=
  {| defect_id := 0;
     defect_bbox := region_bbox blob;
     defect_area := 100;
     confidence_permille := 1000;
     first_seen_frame := 0;
     last_seen_frame := 2 |}.

Definition third_result : DetectionResult :=
  {| result_frame_id := 2; defects := [blob_defect];
     processing_latency := 5; status := Ok |}.

End Aggregator.

(* ===================================================================== *)
(** * Properties of the code in the repository *)
(* ===================================================================== *)

Module FrameProcessorProofs.
Import FrameProcessor.
Local Open Scope string_scope.

Lemma device_initialize (this : t) (d : WGPUDevice) :
  device (snd (fst (initialize this d))) = d.
Proof.
  unfold initialize, initializePipeline.
  destruct (is_null d); reflexivity.
Qed.

Lemma last_cons_default {A} (l : list A) (a d1 d2 : A) :
  List.last (a :: l) d1 = List.last (a :: l) d2.
Proof.
  revert a. induction l as [|b l IH]; intros a; [reflexivity|].
  change (List.last (b :: l) d1 = List.last (b :: l) d2). apply IH.
Qed.

Lemma device_initialize_all (devs : list WGPUDevice) :
  forall this, device (initialize_all this devs) = List.last devs (device this).
Proof.
  induction devs as [|d devs IH]; intros this; [reflexivity|].
  cbn [initialize_all]. rewrite IH, device_initialize.
  destruct devs as [|d' devs]; [reflexivity|].
  change (List.last (d' :: devs) d = List.last (d' :: devs) (device this)).
  apply last_cons_default.
Qed.

Lemma processFrame_by_device (this : t) (textureId : N) (w h : Z) :
  fst (processFrame this textureId w h) =
  if is_null (device this) then not_initialized_frame else processed_frame w h.
Proof.
  unfold processFrame. destruct (is_null (device this)); reflexivity.
Qed.

(** C8, as stated, fails: after [initialize(d)] with a non-null [d]
    and then [initialize(nullptr)], [initialize] has been called with a
    non-null device, yet [processFrame] reports
    "WebGPU device not initialized" instead of the processed frame. *)
Lemma processFrame_after_null_initialize :
  let devs := [1%N; nullptr] in
  called_with_non_null devs = true /\
  fst (processFrame (initialize_all (fst constructor) devs) 7 640 480)
    = not_initialized_frame /\
  fst (processFrame (initialize_all (fst constructor) devs) 7 640 480)
    <> processed_frame 640 480.
Proof.
  cbn. repeat split. discriminate.
Qed.

(** C8, amended: for every history of [initialize] calls on a fresh
    [FrameProcessor] and every [textureId], [width] and [height],
    [processFrame] returns [processed = false] with the error
    "WebGPU device not initialized" (width and height 0) when
    [initialize] was never called or its most recent call passed a null
    device; otherwise it returns [processed = true], the given width
    and height and an empty error string. *)
Theorem processFrame_by_latest_initialize
    (devs : list WGPUDevice) (textureId : N) (w h : Z) :
  fst (processFrame (initialize_all (fst constructor) devs) textureId w h) =
  if is_null (List.last devs nullptr)
  then {| processed := false; width := 0; height := 0;
          error := "WebGPU device not initialized" |}
  else {| processed := true; width := w; height := h; error := "" |}.
Proof.
  rewrite processFrame_by_device, device_initialize_all. reflexivity.
Qed.

End FrameProcessorProofs.

Module WebGPUDetectorProofs.
Import WebGPUDetector.
Local Open Scope string_scope.

(** C9, as stated, fails: when [requestDevice] rejects with an [Error]
    whose message is empty, [initialize] returns [supported = false]
    with the empty string as its error. *)
Lemma initialize_empty_error_message :
  let adapter := {| adapter_id := 1; requestDevice := Throw (JSError "") |} in
  let navigator :=
    {| gpu := Normal (Some {| requestAdapter := Normal (Some adapter) |}) |} in
  exists s this out,
    initialize navigator new [] = (Normal s, this, out) /\
    supported s = false /\
    status_error s = Some "" /\
    has_non_empty_error s = false.
Proof.
  cbn. eexists _, _, _. repeat split.
Qed.

(** C9, as stated, fails a second way: a call can return
    [supported = true] with a null adapter.  The first call is
    suspended at its second [await] when a second call on the same
    detector runs and finds no adapter, which sets [this.adapter] to
    null; the first call's status then reads it. *)
Lemma initialize_overlap_null_adapter :
  let dt := exec [0; 0; 1; 1; 0] (start new [] [with_adapter; without_adapter]) in
  detector_calls dt !! 0 =
    Some (Fulfilled {| supported := true; status_adapter := Some None;
                       status_device := Some (Some a_device);
                       status_error := None |}) /\
  getAdapter (detector_this dt) = None.
Proof. split; reflexivity. Qed.

Lemma error_message_empty (e : Thrown) : error_message e <> "" \/ e = JSError "".
Proof.
  destruct e as [m|]; cbn; [|left; discriminate].
  destruct (String.eqb_spec m ""); subst; [right|left]; auto.
Qed.

Ltac run_segment_body :=
  unfold initialize_begin, initialize_resume, initialize_caught, initialize_catch,
    try_catch, bind, eval, log, ret, set_adapter, set_device, get_this.

(** The first segment never throws; it suspends at [requestAdapter] or
    returns a status without support. *)
Lemma initialize_begin_ok (navigator : Navigator) (this : t) (out : list ConsoleLine) :
  exists p out',
    initialize_begin navigator this out = (Normal p, this, out') /\
    match p with
    | Suspended (AwaitAdapter g) => gpu navigator = Normal (Some g)
    | Suspended (AwaitDevice _) => False
    | Returned s => supported s = false /\ status_ok navigator s
    end.
Proof.
  run_segment_body. unfold status_ok, throws, initialize_try, bind, eval.
  destruct (gpu navigator) as [[g|]|e]; cbn.
  - eexists _, _. split; reflexivity.
  - eexists _, _. split; [reflexivity|]. cbn. split; [reflexivity|].
    eexists. split; [reflexivity|]. left. discriminate.
  - eexists _, _. split; [reflexivity|]. cbn. split; [reflexivity|].
    eexists. split; [reflexivity|].
    destruct (error_message_empty e) as [?| ->]; [auto|right; eauto].
Qed.

(** A later segment never throws either. *)
Lemma initialize_resume_ok (navigator : Navigator) (p : Pending)
    (this : t) (out : list ConsoleLine) :
  match p with
  | AwaitAdapter g => gpu navigator = Normal (Some g)
  | AwaitDevice ad =>
      exists g, gpu navigator = Normal (Some g) /\
                requestAdapter g = Normal (Some ad)
  end ->
  exists p' this' out',
    initialize_resume p this out = (Normal p', this', out') /\
    match p' with
    | Suspended (AwaitAdapter _) => False
    | Suspended (AwaitDevice ad) =>
        exists g, p = AwaitAdapter g /\ requestAdapter g = Normal (Some ad)
    | Returned s => status_ok navigator s
    end.
Proof.
  run_segment_body. unfold status_ok, throws, initialize_try, bind, eval, log,
    set_adapter, set_device, get_this, ret.
  destruct p as [g|ad].
  - intros Hg. rewrite Hg. cbn.
    destruct (requestAdapter g) as [[ad|]|e] eqn:Ha; cbn.
    + eexists _, _, _. split; [reflexivity|]. cbn. eauto.
    + eexists _, _, _. split; [reflexivity|]. cbn.
      eexists. split; [reflexivity|]. left. discriminate.
    + eexists _, _, _. split; [reflexivity|]. cbn.
      eexists. split; [reflexivity|].
      destruct (error_message_empty e) as [?| ->]; [auto|right; eauto].
  - intros (g & Hg & Ha). rewrite Hg. cbn. rewrite Ha. cbn.
    destruct (requestDevice ad) as [[dev|]|e] eqn:Hd; cbn.
    + destruct (addEventListener dev) as [[]|e] eqn:Hl; cbn.
      * eexists _, _, _. split; [reflexivity|]. cbn. eauto.
      * eexists _, _, _. split; [reflexivity|]. cbn.
        eexists. split; [reflexivity|].
        destruct (error_message_empty e) as [?| ->]; [auto|right; eauto].
    + eexists _, _, _. split; [reflexivity|]. cbn.
      eexists. split; [reflexivity|]. left. discriminate.
    + eexists _, _, _. split; [reflexivity|]. cbn.
      eexists. split; [reflexivity|].
      destruct (error_message_empty e) as [?| ->]; [auto|right; eauto].
Qed.

Lemma call_ok_advance (navigator : Navigator) (n i : nat) (c : Call) (dt : Detector) :
  detector_calls dt !! i = Some c ->
  call_ok navigator n c ->
  exists c', detector_calls (advance dt i) !! i = Some c' /\
             call_ok navigator (S n) c'.
Proof.
  intros Hi Hc. unfold advance. rewrite Hi.
  assert (Hlen : i < length (detector_calls dt)) by by eapply lookup_lt_Some.
  destruct c as [navigator'|[g|ad]|s|e]; cbn in Hc.
  - destruct Hc as [-> ->]. unfold run_segment.
    destruct (initialize_begin_ok navigator (detector_this dt) (detector_console dt))
      as (p & out' & -> & Hp).
    cbn. rewrite list_lookup_insert_eq by assumption. eexists; split; [reflexivity|].
    destruct p as [[g|ad]|s]; cbn; [auto|contradiction|].
    destruct Hp as [_ Hs]. split; [assumption|lia].
  - destruct Hc as [Hg ->]. unfold run_segment.
    destruct (initialize_resume_ok navigator (AwaitAdapter g)
                (detector_this dt) (detector_console dt) Hg)
      as (p & this' & out' & -> & Hp).
    cbn. rewrite list_lookup_insert_eq by assumption. eexists; split; [reflexivity|].
    destruct p as [[g'|ad]|s]; cbn; [contradiction| |split; [assumption|lia]].
    destruct Hp as (g' & [= <-] & Ha). eauto.
  - destruct Hc as [Hg ->]. unfold run_segment.
    destruct (initialize_resume_ok navigator (AwaitDevice ad)
                (detector_this dt) (detector_console dt) Hg)
      as (p & this' & out' & -> & Hp).
    cbn. rewrite list_lookup_insert_eq by assumption. eexists; split; [reflexivity|].
    destruct p as [[g'|ad']|s]; cbn; [contradiction| |split; [assumption|lia]].
    destruct Hp as (g' & [=] & _).
  - exists (Fulfilled s). split; [assumption|]. cbn. destruct Hc. split; [assumption|lia].
  - contradiction.
Qed.

Lemma advance_other (i j : nat) (dt : Detector) :
  i <> j -> detector_calls (advance dt j) !! i = detector_calls dt !! i.
Proof.
  intros Hne. unfold advance, run_segment.
  destruct (detector_calls dt !! j) as [[navigator|p|s|e]|]; try reflexivity.
  - destruct (initialize_begin navigator _ _) as [[r this'] out']. cbn.
    by apply list_lookup_insert_ne.
  - destruct (initialize_resume p _ _) as [[r this'] out']. cbn.
    by apply list_lookup_insert_ne.
Qed.

Lemma exec_calls_ok (navigators : list Navigator) (this : t) (out : list ConsoleLine)
    (schedule : list nat) (i : nat) (navigator : Navigator) :
  navigators !! i = Some navigator ->
  exists c,
    detector_calls (exec schedule (start this out navigators)) !! i = Some c /\
    call_ok navigator (count_occ Nat.eq_dec schedule i) c.
Proof.
  intros Hi. induction schedule as [|j schedule IH] using rev_ind.
  - exists (NotCalled navigator). cbn. split; [|done].
    change map with (@fmap list _). by rewrite list_lookup_fmap, Hi.
  - destruct IH as (c & Hc & Hok). unfold exec in *. rewrite fold_left_app. cbn.
    rewrite count_occ_app. cbn. destruct (Nat.eq_dec j i) as [->|Hne].
    + rewrite Nat.add_1_r. by eapply call_ok_advance.
    + rewrite Nat.add_0_r. exists c. split; [|assumption].
      rewrite advance_other by congruence. assumption.
Qed.

(** The three segments of a call that nothing overlaps make up
    [initialize]. *)
Lemma exec_alone (navigator : Navigator) (this : t) (out : list ConsoleLine) :
  exists s this' out',
    initialize navigator this out = (Normal s, this', out') /\
    exec [0; 0; 0] (start this out [navigator]) =
      {| detector_this := this'; detector_console := out';
         detector_calls := [Fulfilled s] |}.
Proof.
  unfold exec, start, advance, run_segment, initialize, initialize_try. cbn.
  run_segment_body.
  destruct (gpu navigator) as [[g|]|e]; cbn; [|by eexists _, _, _..].
  destruct (requestAdapter g) as [[ad|]|e]; cbn; [|by eexists _, _, _..].
  destruct (requestDevice ad) as [[dev|]|e]; cbn; [|by eexists _, _, _..].
  destruct (addEventListener dev) as [[]|e]; cbn; by eexists _, _, _.
Qed.

(** C9, amended: [initialize] never throws; every execution returns a
    [WebGPUStatus], also when calls on the same detector overlap.
    First: however the segments of any number of calls are interleaved,
    no call's promise is rejected, a call that has run its three
    segments has returned a status, a status with [supported] false
    carries an error string, which is non-empty unless the [try] block
    threw an [Error] whose own message is empty, and a status with
    [supported] true carries a non-null device.  Second: the first
    segment never returns [supported] true, and the segment after the
    first [await] stores the adapter it was given, which is not null
    when the call goes on to the second [await].  Third: a status with
    [supported] true is only returned after the second [await]; its
    device is the one [requestDevice] gave this call and the one
    [getDevice] returns at that moment, and its adapter is what
    [getAdapter] returns at that moment, which is what the detector
    held when the call was resumed: the call's own adapter unless
    another call changed it while this one was suspended.  Fourth: for
    a call that no other call overlaps the three segments make up
    [initialize], and then [supported] true implies a non-null adapter
    as well as a non-null device, both returned by [getAdapter] and
    [getDevice] afterwards. *)
Theorem initialize_total :
  (forall (this : t) (out : list ConsoleLine) (navigators : list Navigator)
          (schedule : list nat) (i : nat) (navigator : Navigator),
     navigators !! i = Some navigator ->
     exists c,
       detector_calls (exec schedule (start this out navigators)) !! i = Some c /\
       (forall e, c <> Rejected e) /\
       (3 <= count_occ Nat.eq_dec schedule i -> exists s, c = Fulfilled s) /\
       (forall s, c = Fulfilled s ->
          if supported s then
            exists d, status_device s = Some (Some d)
          else
            exists msg,
              status_error s = Some msg /\
              (msg <> "" \/
               forall this out, throws navigator this out (JSError "")))) /\
  (forall (navigator : Navigator) (this : t) (out : list ConsoleLine),
     exists p out',
       initialize_begin navigator this out = (Normal p, this, out') /\
       forall s, p = Returned s -> supported s = false) /\
  (forall (g : GPU) (this : t) (out : list ConsoleLine) ad this' out',
     initialize_resume (AwaitAdapter g) this out =
       (Normal (Suspended (AwaitDevice ad)), this', out') ->
     requestAdapter g = Normal (Some ad) /\ getAdapter this' = Some ad) /\
  (forall (p : Pending) (this : t) (out : list ConsoleLine) s this' out',
     initialize_resume p this out = (Normal (Returned s), this', out') ->
     supported s = true ->
     status_adapter s = Some (getAdapter this') /\
     getAdapter this' = getAdapter this /\
     exists ad d,
       p = AwaitDevice ad /\ requestDevice ad = Normal (Some d) /\
       status_device s = Some (Some d) /\ getDevice this' = Some d) /\
  (forall (navigator : Navigator) (this : t) (out : list ConsoleLine),
     exists s this' out',
       initialize navigator this out = (Normal s, this', out') /\
       exec [0; 0; 0] (start this out [navigator]) =
         {| detector_this := this'; detector_console := out';
            detector_calls := [Fulfilled s] |} /\
       if supported s then
         exists a d,
           status_adapter s = Some (Some a) /\
           status_device s = Some (Some d) /\
           getAdapter this' = Some a /\
           getDevice this' = Some d
       else
         exists msg,
           status_error s = Some msg /\
           (msg <> "" \/ throws navigator this out (JSError ""))).
Proof.
  split; [|split; [|split; [|split]]].
  - intros this out navigators schedule i navigator Hi.
    destruct (exec_calls_ok navigators this out schedule i navigator Hi)
      as (c & Hc & Hok).
    exists c. split; [assumption|]. split; [|split].
    + intros e ->. exact Hok.
    + intros Hn. destruct c as [navigator'|[g|ad]|s|e]; cbn in Hok.
      * destruct Hok as [_ Hz]. lia.
      * destruct Hok as [_ Hz]. lia.
      * destruct Hok as [_ Hz]. lia.
      * by exists s.
      * contradiction.
    + intros s ->. exact (proj1 Hok).
  - intros navigator this out.
    destruct (initialize_begin_ok navigator this out) as (p & out' & Heq & Hp).
    exists p, out'. split; [assumption|]. intros s ->. exact (proj1 Hp).
  - intros g this out ad this' out'. run_segment_body. unfold getAdapter.
    destruct (requestAdapter g) as [[ad'|]|e]; cbn; intros [= <- <- <-]. auto.
  - intros p this out s this' out'. run_segment_body. unfold getAdapter, getDevice.
    destruct p as [g|ad].
    + destruct (requestAdapter g) as [[ad|]|e]; cbn; intros [= <- <- <-]; discriminate.
    + destruct (requestDevice ad) as [[dev|]|e] eqn:Hd; cbn.
      * destruct (addEventListener dev) as [[]|e]; cbn; intros [= <- <- <-];
          [|discriminate].
        intros _. cbn. split; [reflexivity|]. split; [reflexivity|].
        exists ad, dev. auto.
      * intros [= <- <- <-]; discriminate.
      * intros [= <- <- <-]; discriminate.
  - intros navigator this out.
    destruct (exec_alone navigator this out) as (s & this' & out' & Heq & Hexec).
    exists s, this', out'. split; [assumption|]. split; [assumption|].
    revert Heq. destruct navigator as [g].
    unfold throws, initialize, initialize_try, initialize_catch, try_catch, bind,
      eval, log, ret, set_adapter, set_device, get_this, getAdapter, getDevice.
    cbn [gpu].
    destruct g as [[[ra]|]|e]; cbn.
    2: { intros [= <- <- <-]. cbn.
         eexists; split; [reflexivity|left; discriminate]. }
    2: { intros [= <- <- <-]. cbn. eexists; split; [reflexivity|].
         destruct (error_message_empty e) as [?| ->]; [auto|right; eauto]. }
    destruct ra as [[[aid rd]|]|e]; cbn.
    2: { intros [= <- <- <-]. cbn.
         eexists; split; [reflexivity|left; discriminate]. }
    2: { intros [= <- <- <-]. cbn. eexists; split; [reflexivity|].
         destruct (error_message_empty e) as [?| ->]; [auto|right; eauto]. }
    destruct rd as [[[did ael]|]|e]; cbn.
    2: { intros [= <- <- <-]. cbn.
         eexists; split; [reflexivity|left; discriminate]. }
    2: { intros [= <- <- <-]. cbn. eexists; split; [reflexivity|].
         destruct (error_message_empty e) as [?| ->]; [auto|right; eauto]. }
    destruct ael as [[]|e]; cbn.
    + intros [= <- <- <-]. cbn. eexists _, _; repeat split.
    + intros [= <- <- <-]. cbn. eexists; split; [reflexivity|].
      destruct (error_message_empty e) as [?| ->]; [auto|right; eauto].
Qed.

(** [initialize_total] on the two overlapping calls above: the promise
    of the first call is not rejected, and the call has returned a
    status. *)
Lemma initialize_total_overlap :
  exists c,
    detector_calls
      (exec [0; 0; 1; 1; 0] (start new [] [with_adapter; without_adapter])) !! 0
      = Some c /\
    (forall e, c <> Rejected e) /\
    exists s, c = Fulfilled s.
Proof.
  destruct (proj1 initialize_total new [] [with_adapter; without_adapter]
              [0; 0; 1; 1; 0] 0 with_adapter eq_refl) as (c & Hc & Hrej & Hdone & _).
  exists c. split; [exact Hc|]. split; [exact Hrej|].
  apply Hdone. cbn. lia.
Defined.

End WebGPUDetectorProofs.

Module CameraCaptureProofs.
Import CameraCapture.

Lemma stop_resets (this : t) (h : Heap) : fst (stop this h) = new.
Proof.
  unfold stop. destruct this as [[s|] [v|] c x]; reflexivity.
Qed.

Lemma stop_new (h : Heap) : stop new h = (new, h).
Proof. reflexivity. Qed.

(** C10: after one call to [stop], [getStream], [getVideoTrack] and
    [getStreamSettings] all return null, and a second call to [stop]
    changes neither the object nor the browser objects it refers to
    (no track is stopped again, nothing more is logged). *)
Theorem stop_idempotent (this : t) (h : Heap) :
  let '(this1, h1) := stop this h in
  getStream this1 = None /\
  getVideoTrack this1 h1 = None /\
  getStreamSettings this1 h1 = None /\
  stop this1 h1 = (this1, h1).
Proof.
  pose proof (stop_resets this h) as Hreset.
  destruct (stop this h) as [this1 h1]. cbn in Hreset. subst this1.
  repeat split.
Qed.

End CameraCaptureProofs.

(* ===================================================================== *)
(** * Properties of the detection core as the specification describes it *)
(* ===================================================================== *)

Module OptimizedFrameProcessorProofs.
Import OptimizedFrameProcessor.

Lemma wrap_mod_BUFFER_SIZE (n : N) :
  (wrap n mod BUFFER_SIZE = n mod BUFFER_SIZE)%N.
Proof.
  unfold wrap, BUFFER_SIZE, size_t_bits.
  rewrite (N.Div0.div_mod n (2 ^ 32)) at 2.
  change (2 ^ 32)%N with (2 ^ 30 * 4)%N at 2.
  rewrite <- N.mul_assoc, (N.mul_comm 4), N.mul_assoc, N.add_comm.
  rewrite N.Div0.mod_add. reflexivity.
Qed.

(** When the 33 ms gate lets a frame through, the index stored is the
    index loaded plus one (wrapping at the width of [size_t]), whatever
    the batch step does. *)
Lemma processFrameOptimized_writeIndex (batch : t -> t) now frameData this :
  (33 <= now - lastFrameTime this)%Z ->
  writeIndex (frameBuffer (processFrameOptimized batch now frameData this)) =
  wrap (writeIndex (frameBuffer this) + 1).
Proof.
  intros Hgate. unfold processFrameOptimized.
  destruct (Z.ltb_spec (now - lastFrameTime this) 33); [lia|reflexivity].
Qed.

(** The slot the plan's code uploads the [n]-th frame to, also after its
    32-bit index has wrapped, is the slot [push] of the modelled frame
    ring buffer of capacity [BUFFER_SIZE] writes its [n]-th frame to. *)
Lemma upload_slot_is_write_slot (rb : RingBuffer) (frb : FrameRingBuffer.t) :
  FrameRingBuffer.capacity frb = FrameRingBuffer.BUFFER_SIZE ->
  writeIndex rb = wrap (N.of_nat (FrameRingBuffer.writeIndex frb)) ->
  upload_slot rb = FrameRingBuffer.write_slot frb.
Proof.
  intros Hcap Hidx.
  unfold upload_slot, FrameRingBuffer.write_slot, FrameRingBuffer.slot_of.
  rewrite Hidx, wrap_mod_BUFFER_SIZE, Hcap, N2Nat.inj_mod, Nat2N.id.
  reflexivity.
Qed.

(** Six frames, 40 ms apart, with nothing consuming: frames 0 and 1 are
    overwritten by frames 4 and 5; the indices are all the bookkeeping
    the plan's code keeps. *)
Example six_uploads :
  frameBuffer (feed (fun this => this) 40 40
                    [[0]; [1]; [2]; [3]; [4]; [5]]%N new)
  = {| textures := [Some [4]; Some [5]; Some [2]; Some [3]]%N;
       writeIndex := 6; readIndex := 0 |}.
Proof. reflexivity. Qed.

End OptimizedFrameProcessorProofs.

Module FrameRingBufferProofs.
Import Core FrameRingBuffer.

Lemma mod_distinct (C i j : nat) :
  0 < C -> i < j -> j - i < C -> i mod C <> j mod C.
Proof.
  intros HC Hij Hlt Heq.
  pose proof (Nat.div_mod_eq i C) as Hi.
  pose proof (Nat.div_mod_eq j C) as Hj.
  rewrite Heq in Hi.
  assert (i `div` C < j `div` C) by nia. nia.
Qed.

Lemma omap_agree {A B} (f g : A -> option B) (l : list A) :
  (forall x, x ∈ l -> f x = g x) -> omap f l = omap g l.
Proof.
  induction l as [|a l IH]; intros H; [reflexivity|].
  cbn. rewrite (H a) by left. rewrite IH; [reflexivity|].
  intros x Hx. apply H. by right.
Qed.

Lemma wf_create (C : nat) : 0 < C -> wf (create C).
Proof.
  intros HC. split; cbn; try lia.
  - apply length_replicate.
Qed.

Local Arguments make_room : simpl never.

Lemma make_room_facts (rb : t) :
  wf rb ->
  let rb1 := make_room rb in
  capacity rb1 = capacity rb /\ slots rb1 = slots rb /\
  writeIndex rb1 = writeIndex rb /\
  readIndex rb1 <= writeIndex rb1 /\
  writeIndex rb1 - readIndex rb1 < capacity rb /\
  readIndex rb1 = (if is_full rb then S (readIndex rb) else readIndex rb) /\
  droppedFrameCount rb1 =
    (if is_full rb then S (droppedFrameCount rb) else droppedFrameCount rb).
Proof.
  intros [HC Hs Ho Hb Hf]. unfold make_room, is_full, occupancy in *.
  destruct (Nat.leb_spec (capacity rb) (writeIndex rb - readIndex rb));
    cbn; repeat split; lia.
Qed.

Lemma frame_at_push (f : Frame) (rb : t) (i : nat) :
  wf rb ->
  frame_at (push f rb) i =
  if decide (slot_of rb i = write_slot rb) then Some f else frame_at rb i.
Proof.
  intros Hwf. pose proof (make_room_facts rb Hwf) as (Hc & Hs & Hw & _).
  destruct Hwf as [HC Hlen _ _ _].
  unfold push, frame_at, slot_of, write_slot, slot_of.
  cbn. rewrite Hc, Hs, Hw.
  case_decide as Heq.
  - rewrite Heq, list_lookup_insert_eq; [reflexivity|].
    rewrite Hlen. apply Nat.mod_upper_bound. lia.
  - rewrite list_lookup_insert_ne by congruence. reflexivity.
Qed.

Lemma unconsumed_make_room (rb : t) :
  wf rb ->
  unconsumed (make_room rb) =
  if is_full rb then drop 1 (unconsumed rb) else unconsumed rb.
Proof.
  intros Hwf. destruct Hwf as [HC Hs Ho Hb Hf].
  unfold make_room, is_full, occupancy in *.
  destruct (Nat.leb_spec (capacity rb) (writeIndex rb - readIndex rb)) as [Hfull|Hfree];
    [|reflexivity].
  unfold unconsumed, occupancy, evict_oldest; cbn.
  replace (writeIndex rb - readIndex rb) with (S (writeIndex rb - S (readIndex rb))) by lia.
  cbn [seq omap list_omap].
  destruct (Hf (readIndex rb)) as [x Hx]; [lia|].
  change (frame_at
     {| capacity := capacity rb; slots := slots rb; writeIndex := writeIndex rb;
        readIndex := S (readIndex rb);
        droppedFrameCount := S (droppedFrameCount rb) |}) with (frame_at rb).
  rewrite Hx. reflexivity.
Qed.

Lemma unconsumed_push (f : Frame) (rb : t) :
  wf rb ->
  unconsumed (push f rb) =
  (if is_full rb then drop 1 (unconsumed rb) else unconsumed rb) ++ [f].
Proof.
  intros Hwf. rewrite <- unconsumed_make_room by assumption.
  pose proof (make_room_facts rb Hwf) as (Hc & Hs & Hw & Hle & Hlt & _).
  pose proof (wf_capacity _ Hwf) as HC.
  unfold unconsumed at 1, occupancy.
  assert (Hr : readIndex (push f rb) = readIndex (make_room rb)) by reflexivity.
  assert (Hw' : writeIndex (push f rb) = S (writeIndex (make_room rb))) by reflexivity.
  rewrite Hr, Hw'.
  replace (S (writeIndex (make_room rb)) - readIndex (make_room rb))
    with ((writeIndex (make_room rb) - readIndex (make_room rb)) + 1) by lia.
  rewrite seq_app, omap_app. f_equal.
  - unfold unconsumed, occupancy. apply omap_agree.
    intros i Hi. apply list_elem_of_In, in_seq in Hi.
    rewrite frame_at_push by assumption.
    case_decide as Heq.
    + exfalso. unfold write_slot, slot_of in Heq.
      apply (mod_distinct (capacity rb) i (writeIndex rb)); [lia..|assumption].
    + unfold frame_at, slot_of. rewrite Hc, Hs. reflexivity.
  - cbn. rewrite frame_at_push by assumption.
    replace (readIndex (make_room rb) + (writeIndex (make_room rb) - readIndex (make_room rb)))
      with (writeIndex rb) by lia.
    unfold write_slot. rewrite decide_True by reflexivity. reflexivity.
Qed.

Lemma length_unconsumed (rb : t) :
  wf rb -> length (unconsumed rb) = occupancy rb.
Proof.
  intros [HC Hs Ho Hb Hf]. unfold unconsumed, occupancy in *.
  remember (writeIndex rb - readIndex rb) as n eqn:Hn.
  assert (Hr : forall i, readIndex rb <= i < readIndex rb + n -> is_Some (frame_at rb i)).
  { intros i Hi. apply Hf. lia. }
  clear Hn Hf Hb. revert Hr. generalize (readIndex rb) as r.
  induction n as [|n IH]; intros r Hr; [reflexivity|].
  cbn. destruct (Hr r) as [x Hx]; [lia|]. rewrite Hx. cbn.
  f_equal. apply IH. intros i Hi. apply Hr. lia.
Qed.

Lemma wf_push (f : Frame) (rb : t) : wf rb -> wf (push f rb).
Proof.
  intros Hwf. pose proof (make_room_facts rb Hwf) as (Hc & Hs & Hw & Hle & Hlt & _).
  pose proof Hwf as [HC Hlen Ho Hb Hf].
  split.
  - cbn. lia.
  - cbn. rewrite length_insert. congruence.
  - cbn. lia.
  - unfold occupancy. cbn. lia.
  - intros i Hi. cbn in Hi.
    rewrite frame_at_push by assumption.
    case_decide; [eauto|]. apply Hf.
    assert (i <> writeIndex rb) by (intros ->; auto).
    pose proof (make_room_facts rb Hwf) as (_ & _ & _ & _ & _ & Hr & _).
    destruct (is_full rb); lia.
Qed.

Lemma pop_spec (rb : t) :
  wf rb ->
  fst (pop rb) = head (unconsumed rb) /\
  unconsumed (snd (pop rb)) = tail (unconsumed rb) /\
  droppedFrameCount (snd (pop rb)) = droppedFrameCount rb /\
  wf (snd (pop rb)).
Proof.
  intros Hwf. pose proof Hwf as [HC Hlen Ho Hb Hf].
  unfold pop, unconsumed.
  destruct (Nat.eqb_spec (occupancy rb) 0) as [Hz|Hnz].
  - cbn. rewrite Hz. cbn. auto.
  - cbn [fst snd]. unfold occupancy in *. cbn [readIndex writeIndex].
    replace (writeIndex rb - readIndex rb)
      with (S (writeIndex rb - S (readIndex rb))) by lia.
    cbn [seq omap list_omap].
    destruct (Hf (readIndex rb)) as [x Hx]; [lia|]. rewrite Hx.
    split; [reflexivity|]. split; [reflexivity|]. split; [reflexivity|].
    split; cbn; try lia; try assumption.
    intros i Hi. apply (Hf i). lia.
Qed.

Lemma wf_step (rb : t) (op : Op) : wf rb -> wf (step rb op).
Proof.
  intros Hwf. destruct op; cbn; [by apply wf_push | by apply pop_spec].
Qed.

Lemma wf_run (ops : list Op) : forall rb, wf rb -> wf (run ops rb).
Proof.
  unfold run. induction ops as [|op ops IH]; intros rb Hwf; [assumption|].
  cbn. apply IH, wf_step, Hwf.
Qed.

Lemma dropped_push (f : Frame) (rb : t) :
  droppedFrameCount (push f rb) =
  droppedFrameCount rb + (if is_full rb then 1 else 0).
Proof.
  unfold push, make_room. destruct (is_full rb); cbn; lia.
Qed.

Lemma full_write_slot (rb : t) :
  wf rb -> is_full rb = true -> write_slot rb = oldest_slot rb.
Proof.
  intros [HC Hs Ho Hb Hf]. unfold is_full, occupancy, write_slot, oldest_slot, slot_of in *.
  intros Hfull%Nat.leb_le.
  replace (writeIndex rb) with (readIndex rb + 1 * capacity rb) by lia.
  apply Nat.Div0.mod_add.
Qed.


Lemma capacity_step (rb : t) (op : Op) : capacity (step rb op) = capacity rb.
Proof.
  destruct op; cbn; [unfold make_room; destruct (is_full rb); reflexivity|].
  unfold pop. destruct (occupancy rb =? 0); reflexivity.
Qed.

Lemma capacity_run (ops : list Op) : forall rb, capacity (run ops rb) = capacity rb.
Proof.
  unfold run. induction ops as [|op ops IH]; intros rb; [reflexivity|].
  cbn [fold_left]. rewrite IH. apply capacity_step.
Qed.

Lemma push_all_spec (fs : list Frame) :
  forall rb, wf rb ->
    let all := unconsumed rb ++ fs in
    wf (push_all fs rb) /\
    capacity (push_all fs rb) = capacity rb /\
    unconsumed (push_all fs rb) = drop (length all - capacity rb) all /\
    droppedFrameCount (push_all fs rb) =
      droppedFrameCount rb + (length all - capacity rb).
Proof.
  unfold push_all. induction fs as [|f fs IH]; intros rb Hwf.
  - cbn [fold_left]. rewrite app_nil_r.
    pose proof (length_unconsumed rb Hwf). pose proof (wf_bound rb Hwf).
    replace (length (unconsumed rb) - capacity rb) with 0 by lia.
    rewrite drop_0.
    split; [assumption|]. split; [reflexivity|]. split; [reflexivity|lia].
  - cbn [fold_left].
    destruct (IH (push f rb) (wf_push f rb Hwf)) as (Hwf' & Hcap & Hu & Hd).
    assert (Hc : capacity (push f rb) = capacity rb).
    { apply (capacity_step rb (Push f)). }
    rewrite Hc in *. rewrite unconsumed_push in Hu, Hd by assumption.
    rewrite dropped_push in Hd.
    pose proof (length_unconsumed rb Hwf) as Hlen.
    pose proof (wf_bound rb Hwf) as Hb. pose proof (wf_capacity rb Hwf) as HC.
    unfold is_full in *. rewrite <- Hlen in *.
    split; [assumption|]. split; [assumption|].
    destruct (Nat.leb_spec (capacity rb) (length (unconsumed rb))) as [Hfull|Hfree].
    + assert (Hl : length (unconsumed rb) = capacity rb) by lia.
      destruct (unconsumed rb) as [|x u] eqn:Heq; [cbn in Hl; lia|].
      cbn [drop] in Hu, Hd. rewrite drop_0 in Hu, Hd.
      rewrite <- !app_assoc in Hu, Hd. cbn [app] in Hu, Hd.
      rewrite !length_app in *. cbn [length] in *.
      rewrite Hu, Hd. split.
      * replace (S (length u) + S (length fs) - capacity rb) with (S (length fs - 0)) by lia.
        replace (length u + S (length fs) - capacity rb) with (length fs - 0) by lia.
        reflexivity.
      * lia.
    + rewrite <- !app_assoc in Hu, Hd. cbn [app] in Hu, Hd.
      rewrite Hu, Hd. split; [reflexivity|lia].
Qed.

(** C2: for a ring buffer of capacity [C] (at least one slot), after any
    sequence of pushes and pops the occupancy never exceeds [C]; a
    [push] on a full buffer evicts the oldest unconsumed frame, writes
    the new frame into the slot that frame held and adds one to the
    dropped-frame counter, while a [push] on a buffer that is not full
    drops nothing; after pushing any frames into an empty buffer with no
    pop, the counter is the number of frames beyond [C] and the newest
    [C] frames are held; with the default capacity 4 and six frames
    pushed before any is consumed, exactly the first two are dropped and
    [droppedFrameCount = 2]. *)
Theorem push_drops_oldest (C : nat) :
  0 < C ->
  (forall ops, occupancy (run ops (create C)) <= C) /\
  (forall ops f,
     let rb := run ops (create C) in
     if is_full rb then
       unconsumed (push f rb) = drop 1 (unconsumed rb) ++ [f] /\
       write_slot rb = oldest_slot rb /\
       droppedFrameCount (push f rb) = S (droppedFrameCount rb)
     else
       unconsumed (push f rb) = unconsumed rb ++ [f] /\
       droppedFrameCount (push f rb) = droppedFrameCount rb) /\
  (forall fs,
     let rb := push_all fs (create C) in
     droppedFrameCount rb = length fs - C /\
     unconsumed rb = drop (length fs - C) fs) /\
  (forall f1 f2 f3 f4 f5 f6,
     let rb := push_all [f1; f2; f3; f4; f5; f6] (create BUFFER_SIZE) in
     droppedFrameCount rb = 2 /\ unconsumed rb = [f3; f4; f5; f6]).
Proof.
  intros HC. pose proof (wf_create C HC) as Hwf0.
  split; [|split; [|split]].
  - intros ops. pose proof (wf_bound _ (wf_run ops _ Hwf0)) as Hb.
    rewrite capacity_run in Hb. exact Hb.
  - intros ops f rb. pose proof (wf_run ops _ Hwf0) as Hwf. fold rb in Hwf.
    pose proof (unconsumed_push f rb Hwf) as Hu.
    pose proof (dropped_push f rb) as Hd.
    destruct (is_full rb) eqn:Hfull.
    + split; [assumption|]. split; [by apply full_write_slot|lia].
    + split; [assumption|lia].
  - intros fs rb. destruct (push_all_spec fs _ Hwf0) as (_ & _ & Hu & Hd).
    fold rb in Hu, Hd. cbn in Hu, Hd. split; assumption.
  - intros. split; reflexivity.
Qed.

(** [push_drops_oldest] at the default capacity. *)
Lemma push_drops_oldest_default :
  0 < BUFFER_SIZE /\
  forall ops, occupancy (run ops (create BUFFER_SIZE)) <= BUFFER_SIZE.
Proof.
  assert (H : 0 < BUFFER_SIZE) by (unfold BUFFER_SIZE; lia).
  split; [exact H|]. exact (proj1 (push_drops_oldest BUFFER_SIZE H)).
Defined.

End FrameRingBufferProofs.

Module SchedulerProofs.
Import Core Scheduler.
Import FrameRingBufferProofs.

Lemma flush_spec (ids : list nat) :
  forall buf out ids' buf' out',
    flush ids buf out = (ids', buf', out') ->
    (forall id r, buf !! id = Some r -> result_frame_id r = id) ->
    exists done,
      ids = done ++ ids' /\
      map result_frame_id out' = map result_frame_id out ++ done /\
      (forall id, head ids' = Some id -> buf' !! id = None) /\
      (forall id r, buf' !! id = Some r -> buf !! id = Some r /\ id ∉ done).
Proof.
  induction ids as [|id ids IH]; intros buf out ids' buf' out' Hflush Hlabel.
  - cbn in Hflush. injection Hflush as <- <- <-. exists [].
    split; [reflexivity|]. split; [by rewrite app_nil_r|].
    split; [discriminate|]. intros id r Hr. split; [assumption|].
    apply not_elem_of_nil.
  - cbn in Hflush. destruct (buf !! id) as [r|] eqn:Hid.
    + apply IH in Hflush as (done & -> & Hout & Hhead & Hbuf).
      * exists (id :: done). split; [reflexivity|]. split.
        { rewrite Hout, map_app. cbn. rewrite (Hlabel id r Hid), <- app_assoc.
          reflexivity. }
        split; [assumption|].
        intros id' r' Hr'. apply Hbuf in Hr' as [Hdel Hnot].
        apply lookup_delete_Some in Hdel as [Hne Hr']. split; [assumption|].
        intros [->|Hin]%elem_of_cons; [congruence|auto].
      * intros id' r' Hdel. apply lookup_delete_Some in Hdel as [_ Hr'].
        eauto.
    + injection Hflush as <- <- <-. exists []. cbn.
      split; [reflexivity|]. split; [by rewrite app_nil_r|].
      split; [intros id' [= <-]; assumption|].
      intros id' r' Hr'. split; [assumption|]. apply not_elem_of_nil.
Qed.

Lemma scheduler_init_inv (C m : nat) : 0 < C -> inv (init C m).
Proof.
  intros HC. split; cbn.
  - by apply wf_create.
  - constructor.
  - constructor.
  - intros id r Hr. by rewrite lookup_empty in Hr.
  - discriminate.
Qed.

Lemma known_ids_ingest (d : FrameData) (s : t) :
  FrameRingBuffer.wf (ring s) ->
  known_ids (ingest d s) =
  admitted_ids s ++
  drop (if FrameRingBuffer.is_full (ring s) then 1 else 0)
       (map frame_id (FrameRingBuffer.unconsumed (ring s))) ++ [nextFrameId s].
Proof.
  intros Hwf. unfold known_ids, admitted_ids, delivered_ids, ingest.
  cbn [ring delivered awaiting].
  rewrite unconsumed_push by assumption. rewrite map_app. cbn [map frame_id mkFrame].
  change map with (@fmap list _).
  destruct (FrameRingBuffer.is_full (ring s)); [rewrite fmap_drop|]; reflexivity.
Qed.

Lemma sorted_drop (k : nat) (l : list nat) :
  StronglySorted lt l -> StronglySorted lt (drop k l).
Proof.
  intros H. rewrite <- (take_drop k l) in H.
  by apply StronglySorted_app_1_r in H.
Qed.

Lemma elem_of_drop (k : nat) (l : list nat) (x : nat) : x ∈ drop k l -> x ∈ l.
Proof.
  intros H. rewrite <- (take_drop k l). apply elem_of_app. by right.
Qed.

Lemma inv_ingest (d : FrameData) (s : t) : inv s -> inv (ingest d s).
Proof.
  intros [Hring Hsorted Hfresh Hlabel Hhead].
  split; try assumption.
  - by apply wf_push.
  - rewrite known_ids_ingest by assumption.
    unfold known_ids in *. rewrite Forall_forall in Hfresh.
    revert Hsorted. rewrite !StronglySorted_app.
    intros (H1 & H2 & H3).
    split; [|split; [assumption|split; [|split]]].
    + intros x1 x2 Hx1 Hx2. apply elem_of_app in Hx2 as [Hx2|Hx2].
      * apply H1; [assumption|]. by apply elem_of_drop in Hx2.
      * apply list_elem_of_singleton in Hx2 as ->. apply Hfresh.
        apply elem_of_app. by left.
    + intros x1 x2 Hx1 Hx2. apply list_elem_of_singleton in Hx2 as ->.
      apply Hfresh. apply elem_of_app. right. by apply elem_of_drop in Hx1.
    + by apply sorted_drop.
    + repeat constructor.
  - rewrite known_ids_ingest by assumption.
    unfold known_ids in *. rewrite Forall_forall in *. intros x Hx.
    change (nextFrameId (ingest d s)) with (S (nextFrameId s)).
    apply elem_of_app in Hx as [Hx|Hx].
    + assert (x < nextFrameId s); [|lia]. apply Hfresh, elem_of_app. by left.
    + apply elem_of_app in Hx as [Hx|Hx].
      * assert (x < nextFrameId s); [|lia]. apply Hfresh, elem_of_app. right.
        by apply elem_of_drop in Hx.
      * apply list_elem_of_singleton in Hx as ->. lia.
Qed.

Lemma inv_admission (s : t) : inv s -> inv (admission s).
Proof.
  intros Hinv. unfold admission.
  destruct (inFlight s <? maxInFlightFrames s); [|assumption].
  destruct Hinv as [Hring Hsorted Hfresh Hlabel Hhead].
  pose proof (pop_spec (ring s) Hring) as (Hfst & Hrest & _ & Hwf).
  destruct (FrameRingBuffer.pop (ring s)) as [[f|] ring'] eqn:Hpop; cbn in *;
    [|by split].
  assert (Hu : FrameRingBuffer.unconsumed (ring s) = f :: FrameRingBuffer.unconsumed ring').
  { rewrite Hrest. destruct (FrameRingBuffer.unconsumed (ring s)); [discriminate|].
    cbn in *. congruence. }
  assert (Hk : known_ids
      {| ring := ring'; nextFrameId := nextFrameId s;
         maxInFlightFrames := maxInFlightFrames s;
         awaiting := awaiting s ++ [frame_id f];
         reorder := reorder s; delivered := delivered s |} = known_ids s).
  { unfold known_ids, admitted_ids, delivered_ids. cbn. rewrite Hu. cbn.
    rewrite <- !app_assoc. reflexivity. }
  split.
  - exact Hwf.
  - rewrite Hk. exact Hsorted.
  - rewrite Hk. exact Hfresh.
  - cbn. intros id r Hr. apply Hlabel in Hr as [? ?].
    split; [assumption|]. apply elem_of_app. by left.
  - cbn. intros id Hid. destruct (awaiting s) as [|a rest] eqn:Ha.
    + destruct (reorder s !! id) as [r|] eqn:Hr; [|reflexivity].
      apply Hlabel in Hr as [_ Hin]. by apply not_elem_of_nil in Hin.
    + apply Hhead. exact Hid.
Qed.

Lemma inv_resolve (r : DetectionResult) (s : t) : inv s -> inv (resolve r s).
Proof.
  intros Hinv. unfold resolve.
  destruct (bool_decide (result_frame_id r ∈ awaiting s) &&
            negb (resolved (reorder s) (result_frame_id r))) eqn:Hguard;
    [|assumption].
  apply andb_true_iff in Hguard as [Hin Hnew].
  apply bool_decide_eq_true in Hin.
  destruct Hinv as [Hring Hsorted Hfresh Hlabel Hhead].
  destruct (flush (awaiting s) (<[result_frame_id r:=r]> (reorder s)) (delivered s))
    as [[ids buf] out] eqn:Hflush.
  apply flush_spec in Hflush as (done & Hids & Hout & Hh & Hb).
  2: { intros id r' Hr'. apply lookup_insert_Some in Hr' as [[<- <-]|[_ Hr']];
       [reflexivity|]. exact (proj1 (Hlabel _ _ Hr')). }
  assert (Hk : known_ids
      {| ring := ring s; nextFrameId := nextFrameId s;
         maxInFlightFrames := maxInFlightFrames s;
         awaiting := ids; reorder := buf; delivered := out |} = known_ids s).
  { unfold known_ids, admitted_ids, delivered_ids. cbn. rewrite Hout, Hids.
    rewrite <- !app_assoc. reflexivity. }
  split.
  - exact Hring.
  - rewrite Hk. exact Hsorted.
  - rewrite Hk. exact Hfresh.
  - cbn. intros id r' Hr'. apply Hb in Hr' as [Hr' Hnot].
    assert (id ∈ awaiting s) as Hid.
    { apply lookup_insert_Some in Hr' as [[<- <-]|[_ Hr']]; [assumption|].
      exact (proj2 (Hlabel _ _ Hr')). }
    split.
    + apply lookup_insert_Some in Hr' as [[<- <-]|[_ Hr']]; [reflexivity|].
      exact (proj1 (Hlabel _ _ Hr')).
    + rewrite Hids in Hid. apply elem_of_app in Hid as [Hid|Hid]; [done|exact Hid].
  - exact Hh.
Qed.

Lemma inv_step (s : t) (e : Event) : inv s -> inv (step s e).
Proof.
  destruct e; cbn; auto using inv_ingest, inv_admission, inv_resolve.
Qed.

Lemma inv_run (es : list Event) : forall s, inv s -> inv (run es s).
Proof.
  unfold run. induction es as [|e es IH]; intros s Hinv; [assumption|].
  cbn. apply IH, inv_step, Hinv.
Qed.

Lemma flush_exact (ids : list nat) :
  forall buf out ids' buf' out',
    flush ids buf out = (ids', buf', out') ->
    exists done ds,
      ids = done ++ ids' /\ out' = out ++ ds /\
      Forall2 (fun k d => buf !! k = Some d) done ds /\
      (forall k, head ids' = Some k -> buf' !! k = None) /\
      (forall k, buf' !! k = if decide (k ∈ done) then None else buf !! k).
Proof.
  induction ids as [|id ids IH]; intros buf out ids' buf' out' Hflush.
  - cbn in Hflush. injection Hflush as <- <- <-. exists [], [].
    split; [reflexivity|]. split; [by rewrite app_nil_r|].
    split; [constructor|]. split; [discriminate|].
    intros k. case_decide as Hk; [by apply not_elem_of_nil in Hk|reflexivity].
  - cbn in Hflush. destruct (buf !! id) as [r|] eqn:Hid.
    + apply IH in Hflush as (done & ds & -> & -> & Hall & Hhead & Hbuf).
      exists (id :: done), (r :: ds).
      split; [reflexivity|]. split; [by rewrite <- app_assoc|].
      split.
      { constructor; [assumption|].
        eapply Forall2_impl; [exact Hall|]. cbn. intros k d Hd.
        by apply lookup_delete_Some in Hd as [_ Hd]. }
      split; [assumption|].
      intros k. rewrite Hbuf.
      destruct (decide (k = id)) as [->|Hne].
      * rewrite lookup_delete_eq.
        rewrite (decide_True (P := id ∈ id :: done)) by apply list_elem_of_here.
        by case_decide.
      * rewrite lookup_delete_ne by congruence.
        case_decide as Hk.
        -- rewrite decide_True; [reflexivity|]. by apply list_elem_of_further.
        -- rewrite decide_False; [reflexivity|].
           intros [->|Hin]%elem_of_cons; [congruence|done].
    + injection Hflush as <- <- <-. exists [], []. cbn.
      split; [reflexivity|]. split; [by rewrite app_nil_r|].
      split; [constructor|]. split; [intros k [= <-]; assumption|].
      intros k. case_decide as Hk; [by apply not_elem_of_nil in Hk|reflexivity].
Qed.

Lemma sorted_awaiting (s : t) : inv s -> StronglySorted lt (awaiting s).
Proof.
  intros [_ Hsorted _ _ _]. unfold known_ids, admitted_ids in Hsorted.
  apply StronglySorted_app_1_l in Hsorted.
  by apply StronglySorted_app_1_r in Hsorted.
Qed.

Lemma sorted_lt_NoDup (l : list nat) : StronglySorted lt l -> NoDup l.
Proof.
  induction 1 as [|x l Hs IH Hall]; constructor; [|assumption].
  intros Hin. rewrite Forall_forall in Hall. apply Hall in Hin. lia.
Qed.

(** What a completion does in a state that satisfies the invariant: the
    results handed over are those of the longest prefix of the awaited
    frames that is resolved once [r] is in the buffer, and every other
    buffered result, [r] included, stays in the buffer. *)
Lemma resolve_exact (r : DetectionResult) (s : t) :
  inv s ->
  result_frame_id r ∈ awaiting s ->
  reorder s !! result_frame_id r = None ->
  let buf := <[result_frame_id r := r]> (reorder s) in
  exists done ds,
    awaiting s = done ++ awaiting (resolve r s) /\
    delivered (resolve r s) = delivered s ++ ds /\
    Forall2 (fun k d => buf !! k = Some d) done ds /\
    (forall k, head (awaiting (resolve r s)) = Some k -> buf !! k = None) /\
    (forall k, reorder (resolve r s) !! k =
               if decide (k ∈ done) then None else buf !! k) /\
    (result_frame_id r ∈ done <->
     forall k, k ∈ awaiting s -> k < result_frame_id r ->
               is_Some (reorder s !! k)) /\
    (r ∈ delivered (resolve r s) \/
     reorder (resolve r s) !! result_frame_id r = Some r).
Proof.
  intros Hinv Hin Hnew buf.
  pose proof (sorted_awaiting s Hinv) as Hsorted.
  pose proof (sorted_lt_NoDup _ Hsorted) as Hnodup.
  unfold resolve. rewrite bool_decide_eq_true_2 by assumption.
  unfold resolved. rewrite Hnew.
  rewrite bool_decide_eq_false_2 by (intros [? ?]; discriminate).
  cbn [negb andb].
  destruct (flush (awaiting s) (<[result_frame_id r:=r]> (reorder s)) (delivered s))
    as [[ids buf'] out] eqn:Hflush.
  apply flush_exact in Hflush as (done & ds & Hids & -> & Hall & Hhead & Hbuf).
  fold buf in Hall, Hbuf. cbn [awaiting delivered reorder].
  assert (Hr : buf !! result_frame_id r = Some r) by apply lookup_insert_eq.
  assert (Hfront : forall k, head ids = Some k -> buf !! k = None).
  { intros k Hk. pose proof (Hhead k Hk) as Hnone. rewrite Hbuf in Hnone.
    case_decide as Hd; [|assumption].
    rewrite Hids in Hnodup. apply NoDup_app in Hnodup as (_ & Hdisj & _).
    exfalso. apply (Hdisj k Hd). destruct ids; [discriminate|].
    injection Hk as ->. apply list_elem_of_here. }
  exists done, ds.
  split; [assumption|]. split; [reflexivity|]. split; [assumption|].
  split; [assumption|]. split; [assumption|].
  split; [split|].
  - intros Hd k Hk Hlt. rewrite Hids in Hk, Hsorted.
    apply StronglySorted_app in Hsorted as (Hcross & _ & _).
    apply elem_of_app in Hk as [Hk|Hk].
    + apply list_elem_of_lookup in Hk as [i Hi].
      destruct (Forall2_lookup_l _ _ _ _ _ Hall Hi) as (d & _ & Hd').
      unfold buf in Hd'. rewrite lookup_insert_ne in Hd' by lia. by exists d.
    + specialize (Hcross _ _ Hd Hk). lia.
  - intros Hprior. destruct (decide (result_frame_id r ∈ done)) as [|Hnot];
      [assumption|exfalso].
    rewrite Hids in Hin. apply elem_of_app in Hin as [Hin|Hin]; [done|].
    destruct ids as [|k0 rest]; [by apply not_elem_of_nil in Hin|].
    pose proof (Hfront k0 eq_refl) as Hk0.
    apply elem_of_cons in Hin as [Heq|Hin]; [congruence|].
    rewrite Hids in Hsorted. apply StronglySorted_app_1_r in Hsorted.
    apply StronglySorted_cons in Hsorted as [Hlt _].
    rewrite Forall_forall in Hlt. specialize (Hlt _ Hin).
    destruct (Hprior k0) as [d Hd]; [|assumption|].
    { rewrite Hids. apply elem_of_app. right. apply list_elem_of_here. }
    unfold buf in Hk0. rewrite lookup_insert_ne in Hk0 by lia. congruence.
  - destruct (decide (result_frame_id r ∈ done)) as [Hd|Hd].
    + left. apply list_elem_of_lookup in Hd as [i Hi].
      destruct (Forall2_lookup_l _ _ _ _ _ Hall Hi) as (d & Hds & Hd').
      assert (d = r) as -> by congruence.
      apply elem_of_app. right. by apply list_elem_of_lookup_2 in Hds.
    + right. rewrite Hbuf. by rewrite decide_False.
Qed.

(** C1: after any sequence of ingestions, admissions and completions
    (in any order), the frame ids of the results delivered to the
    consumer are strictly increasing and smaller than the id of every
    admitted frame whose result is still to be delivered; and a
    completed result is held in the reordering buffer only while the
    oldest admitted frame that has not been delivered, which has a
    smaller id, is still unresolved.  Moreover every step does its
    part.  The completion [r] of an awaited frame is never lost: it is
    either delivered at once or kept in the reordering buffer, and it is
    delivered at once exactly when every frame admitted before it is
    resolved; the results delivered by the step are exactly the buffered
    results of the longest prefix of the awaited frames that is then
    resolved, in admission order, and all other buffered results stay.
    A completion of a frame that is not awaited, or a second one for
    the same frame, changes nothing.  An admission appends the oldest
    unconsumed frame of the ring buffer to the awaited frames when
    fewer than [maxInFlightFrames] are in flight, and an ingestion only
    adds the frame with the next id to the ring buffer. *)
Theorem delivered_in_order (C maxInFlight : nat) (es : list Event) :
  0 < C ->
  let s := run es (init C maxInFlight) in
  StronglySorted lt (delivered_ids s) /\
  (forall d a, d ∈ delivered_ids s -> a ∈ awaiting s -> d < a) /\
  (forall id r, reorder s !! id = Some r ->
     exists prior, head (awaiting s) = Some prior /\ prior < id /\
                   reorder s !! prior = None) /\
  (forall r,
     result_frame_id r ∈ awaiting s ->
     reorder s !! result_frame_id r = None ->
     let s' := step s (Resolve r) in
     let buf := <[result_frame_id r := r]> (reorder s) in
     exists done ds,
       awaiting s = done ++ awaiting s' /\
       delivered s' = delivered s ++ ds /\
       Forall2 (fun k d => buf !! k = Some d) done ds /\
       (forall k, head (awaiting s') = Some k -> buf !! k = None) /\
       (forall k, reorder s' !! k = if decide (k ∈ done) then None else buf !! k) /\
       (result_frame_id r ∈ done <->
        forall k, k ∈ awaiting s -> k < result_frame_id r ->
                  is_Some (reorder s !! k)) /\
       (r ∈ delivered s' \/ reorder s' !! result_frame_id r = Some r)) /\
  (forall r,
     result_frame_id r ∉ awaiting s \/ is_Some (reorder s !! result_frame_id r) ->
     step s (Resolve r) = s) /\
  (let s' := step s Admission in
   let admitted :=
     if inFlight s <? maxInFlightFrames s then 1 else 0 in
   awaiting s' =
     awaiting s ++ map frame_id (take admitted (FrameRingBuffer.unconsumed (ring s))) /\
   FrameRingBuffer.unconsumed (ring s') =
     drop admitted (FrameRingBuffer.unconsumed (ring s)) /\
   delivered s' = delivered s /\ reorder s' = reorder s) /\
  (forall d,
     let s' := step s (Ingest d) in
     FrameRingBuffer.unconsumed (ring s') =
       drop (if FrameRingBuffer.is_full (ring s) then 1 else 0)
            (FrameRingBuffer.unconsumed (ring s)) ++ [mkFrame (nextFrameId s) d] /\
     nextFrameId s' = S (nextFrameId s) /\
     awaiting s' = awaiting s /\
     delivered s' = delivered s /\ reorder s' = reorder s).
Proof.
  intros HC s.
  pose proof (inv_run es _ (scheduler_init_inv C maxInFlight HC)) as Hinv.
  fold s in Hinv. pose proof Hinv as [Hring Hsorted _ Hlabel Hhead].
  unfold known_ids, admitted_ids in Hsorted.
  apply StronglySorted_app_1_l in Hsorted.
  apply StronglySorted_app in Hsorted as (Hlt & Hdel & Hawait).
  split; [assumption|]. split; [exact Hlt|].
  split.
  { intros id r Hr. pose proof (Hlabel id r Hr) as [_ Hin].
    destruct (awaiting s) as [|prior rest] eqn:Ha;
      [by apply not_elem_of_nil in Hin|].
    exists prior. split; [reflexivity|].
    assert (Hp : reorder s !! prior = None) by (apply Hhead; reflexivity).
    split; [|assumption].
    apply StronglySorted_cons in Hawait as [Hall _].
    apply elem_of_cons in Hin as [->|Hin]; [congruence|].
    rewrite Forall_forall in Hall. by apply Hall. }
  split.
  { intros r Hin Hnew. exact (resolve_exact r s Hinv Hin Hnew). }
  split.
  { intros r Hr. cbn. unfold resolve, resolved.
    destruct Hr as [Hr|Hr].
    - by rewrite bool_decide_eq_false_2.
    - rewrite (bool_decide_eq_true_2 _ Hr). cbn. by rewrite andb_false_r. }
  split.
  { cbv zeta. cbn [step]. unfold admission.
    destruct (inFlight s <? maxInFlightFrames s).
    - pose proof (pop_spec (ring s) Hring) as (Hfst & Hrest & _ & _).
      destruct (FrameRingBuffer.pop (ring s)) as [[f|] ring'] eqn:Hpop;
        cbn in Hfst, Hrest;
        destruct (FrameRingBuffer.unconsumed (ring s)) as [|f0 fs] eqn:Hu;
        try discriminate; cbn [awaiting ring delivered reorder].
      + injection Hfst as ->. rewrite Hrest. by cbn.
      + cbn. by rewrite app_nil_r.
    - cbn. rewrite app_nil_r, drop_0. done. }
  intros d. cbv zeta. cbn [step]. unfold ingest.
  cbn [ring nextFrameId awaiting delivered reorder]. split; [|done].
  rewrite unconsumed_push by assumption.
  destruct (FrameRingBuffer.is_full (ring s)); [reflexivity|by rewrite drop_0].
Qed.

(** [delivered_in_order] on the run that completes frames 2, 0, 1: the
    delivered ids are in order at the end; and when frame 0 completes,
    after frame 2 and before frame 1, its result is not lost. *)
Lemma delivered_in_order_out_of_order :
  0 < 4 /\
  StronglySorted lt (delivered_ids (run out_of_order (init 4 3))) /\
  let s := run (take 7 out_of_order) (init 4 3) in
  let r := done_result 0 in
  result_frame_id r ∈ awaiting s /\
  reorder s !! result_frame_id r = None /\
  (r ∈ delivered (step s (Resolve r)) \/
   reorder (step s (Resolve r)) !! result_frame_id r = Some r).
Proof.
  assert (H : 0 < 4) by lia.
  split; [exact H|].
  split; [exact (proj1 (delivered_in_order 4 3 out_of_order H))|].
  assert (Hin : result_frame_id (done_result 0)
                  ∈ awaiting (run (take 7 out_of_order) (init 4 3)))
    by (vm_compute; apply list_elem_of_here).
  assert (Hnew : reorder (run (take 7 out_of_order) (init 4 3))
                   !! result_frame_id (done_result 0) = None)
    by (vm_compute; reflexivity).
  split; [exact Hin|]. split; [exact Hnew|].
  destruct (proj1 (proj2 (proj2 (proj2
              (delivered_in_order 4 3 (take 7 out_of_order) H))))
              (done_result 0) Hin Hnew)
    as (done & ds & _ & _ & _ & _ & _ & _ & Hkept).
  exact Hkept.
Defined.

(** The same run, step by step: frame 2 completes first and nothing is
    delivered; frame 0 completes and only it is delivered, frame 2 stays
    in the reordering buffer; frame 1 completes and both follow. *)
Example out_of_order_delivery :
  delivered_ids (run (take 7 out_of_order) (init 4 3)) = [] /\
  delivered_ids (run (take 8 out_of_order) (init 4 3)) = [0] /\
  awaiting (run (take 8 out_of_order) (init 4 3)) = [1; 2] /\
  delivered_ids (run out_of_order (init 4 3)) = [0; 1; 2].
Proof. vm_compute. repeat split. Qed.

End SchedulerProofs.

Module AggregatorProofs.
Import Core Aggregator.

Section Policy.
Variable overlap : BBox -> BBox -> N.
Variable confidence : CandidateRegion -> N.
Variable cfg : Config.

Lemma argmax_lookup (b : BBox) (rs : list CandidateRegion) i r :
  argmax overlap b rs = Some (i, r) -> rs !! i = Some r.
Proof.
  revert i r. induction rs as [|r0 rs IH]; intros i r H; [discriminate|].
  cbn in H. destruct (argmax overlap b rs) as [[j r']|].
  - destruct (overlap b (region_bbox r0) <? overlap b (region_bbox r'))%N;
      injection H as <- <-; [apply IH|]; reflexivity.
  - injection H as <- <-. reflexivity.
Qed.

Lemma find_match_spec (b : BBox) (rs : list CandidateRegion) i r :
  find_match overlap cfg b rs = Some (i, r) ->
  rs !! i = Some r /\ (minOverlap cfg < overlap b (region_bbox r))%N.
Proof.
  unfold find_match. destruct (argmax overlap b rs) as [[j r']|] eqn:Ham; [|discriminate].
  destruct (N.ltb_spec (minOverlap cfg) (overlap b (region_bbox r'))); [|discriminate].
  intros [= <- <-]. split; [by eapply argmax_lookup|assumption].
Qed.

Lemma appears_at_app frs fr k b :
  appears_at frs k b -> appears_at (frs ++ [fr]) k b.
Proof.
  intros (fr' & r & Hk & Hr & Hb). exists fr', r. split; [|auto].
  rewrite lookup_app_l; [assumption|]. by eapply lookup_lt_Some.
Qed.

Lemma streak_app frs fr start bs :
  streak overlap cfg frs start bs -> streak overlap cfg (frs ++ [fr]) start bs.
Proof.
  intros [Happ Hch]. split; [|assumption].
  intros j b Hj. apply appears_at_app. eauto.
Qed.

Lemma chain_snoc bs b' :
  chain overlap cfg bs ->
  (forall b, last bs = Some b -> (minOverlap cfg < overlap b b')%N) ->
  chain overlap cfg (bs ++ [b']).
Proof.
  induction bs as [|b bs IH]; intros Hch Hlast; [exact I|].
  destruct bs as [|b2 bs].
  - cbn. split; [|exact I]. apply Hlast. reflexivity.
  - destruct Hch as [H1 H2]. split; [assumption|].
    apply IH; [assumption|]. intros b0 Hb0. apply Hlast. exact Hb0.
Qed.

Lemma run_snoc (frs : list FrameRegions) (fr : FrameRegions) :
  forall st,
    run overlap confidence cfg (frs ++ [fr]) st =
    (fst (run overlap confidence cfg frs st)
       ++ [fst (step overlap confidence cfg fr (snd (run overlap confidence cfg frs st)))],
     snd (step overlap confidence cfg fr (snd (run overlap confidence cfg frs st)))).
Proof.
  induction frs as [|fr0 frs IH]; intros st; cbn.
  - destruct (step overlap confidence cfg fr st); reflexivity.
  - destruct (step overlap confidence cfg fr0 st) as [res0 st0].
    rewrite IH. destruct (run overlap confidence cfg frs st0). reflexivity.
Qed.

Lemma state_after_app frs fr j :
  j < length frs ->
  state_after overlap confidence cfg (frs ++ [fr]) j =
  state_after overlap confidence cfg frs j.
Proof.
  intros Hj. unfold state_after. by rewrite take_app_le by lia.
Qed.

Lemma state_after_last frs fr :
  state_after overlap confidence cfg (frs ++ [fr]) (length frs) =
  snd (step overlap confidence cfg fr (snd (run overlap confidence cfg frs init))).
Proof.
  unfold state_after. rewrite take_ge by (rewrite length_app; cbn; lia).
  by rewrite run_snoc.
Qed.

Lemma state_after_take frs k j :
  j <= k ->
  state_after overlap confidence cfg (take (S k) frs) j =
  state_after overlap confidence cfg frs j.
Proof.
  intros Hj. unfold state_after. rewrite take_take.
  by replace (S j `min` S k) with (S j) by lia.
Qed.

Lemma followed_app frs fr id start bs :
  start + length bs <= length frs ->
  followed overlap confidence cfg frs id start bs ->
  followed overlap confidence cfg (frs ++ [fr]) id start bs.
Proof.
  intros Hle Hf j b Hj. pose proof (lookup_lt_Some _ _ _ Hj) as Hlt.
  destruct (Hf j b Hj) as (tr & Htr & Hrest).
  exists tr. split; [|assumption]. by rewrite state_after_app by lia.
Qed.

Lemma confirmed_evidence_app frs fr id :
  confirmed_evidence overlap confidence cfg frs id (length frs) ->
  confirmed_evidence overlap confidence cfg (frs ++ [fr]) id (length (frs ++ [fr])).
Proof.
  intros (start & bs & HN & Hle & Hs & Hf). exists start, bs.
  split; [assumption|]. split; [rewrite length_app; lia|].
  split; [by apply streak_app|by apply followed_app].
Qed.

(** Extending the current run of a track by the region it met in the
    new frame. *)
Lemma recent_run_matched frs fr tr r :
  recent_run overlap confidence cfg frs tr ->
  r ∈ fr_regions fr ->
  (minOverlap cfg < overlap (defect_bbox (defect tr)) (region_bbox r))%N ->
  matched confidence cfg (fr_id fr) tr r
    ∈ tracks (snd (step overlap confidence cfg fr
                     (snd (run overlap confidence cfg frs init)))) ->
  recent_run overlap confidence cfg (frs ++ [fr])
             (matched confidence cfg (fr_id fr) tr r).
Proof.
  intros (Hle & bs & Hlen & [Happ Hch] & Hf & Hlast) Hr Hov Hin.
  split; [cbn; rewrite length_app; cbn; lia|].
  exists (bs ++ [region_bbox r]). cbn [hits matched defect defect_bbox].
  rewrite !length_app. cbn [length].
  replace (length frs + 1 - S (hits tr)) with (length frs - hits tr) by lia.
  split; [lia|]. split; [split|split].
  - intros j b Hj. apply lookup_snoc_Some in Hj as [[Hlt Hj]|[-> <-]].
    + apply appears_at_app. eauto.
    + exists fr, r. split; [|auto].
      replace (length frs - hits tr + length bs) with (length frs) by lia.
      apply list_lookup_middle. reflexivity.
  - apply chain_snoc; [assumption|]. intros b Hb.
    destruct (decide (hits tr = 0)) as [Hz|Hnz].
    + rewrite Hz in Hlen. apply nil_length_inv in Hlen. subst bs. discriminate.
    + rewrite (Hlast Hnz) in Hb. injection Hb as <-. assumption.
  - intros j b Hj. apply lookup_snoc_Some in Hj as [[Hlt Hj]|[-> <-]].
    + destruct (Hf j b Hj) as (tr0 & Htr0 & Hrest).
      exists tr0. split; [|exact Hrest]. by rewrite state_after_app by lia.
    + replace (length frs - hits tr + length bs) with (length frs) by lia.
      exists (matched confidence cfg (fr_id fr) tr r).
      rewrite state_after_last. split; [assumption|]. cbn. by rewrite Hlen.
  - intros _. apply last_snoc.
Qed.

Lemma track_ok_matched frs fr tr r :
  track_ok overlap confidence cfg frs tr ->
  r ∈ fr_regions fr ->
  (minOverlap cfg < overlap (defect_bbox (defect tr)) (region_bbox r))%N ->
  matched confidence cfg (fr_id fr) tr r
    ∈ tracks (snd (step overlap confidence cfg fr
                     (snd (run overlap confidence cfg frs init)))) ->
  track_ok overlap confidence cfg (frs ++ [fr])
           (matched confidence cfg (fr_id fr) tr r).
Proof.
  intros [Hrec Hconf] Hr Hov Hin.
  pose proof (recent_run_matched frs fr tr r Hrec Hr Hov Hin) as Hrec'.
  split; [assumption|].
  cbn [phase matched]. unfold promote.
  destruct (phase tr) eqn:Hph.
  - destruct (Nat.leb_spec (confirmFrameCount cfg) (S (hits tr))); [|discriminate].
    intros _. destruct Hrec' as (Hle & bs & Hlen & Hs & Hf & _).
    cbn [hits matched] in *.
    exists (length (frs ++ [fr]) - S (hits tr)), bs.
    split; [lia|]. split; [lia|]. split; assumption.
  - intros _. by apply (confirmed_evidence_app frs fr (track_id tr)), Hconf.
  - discriminate.
Qed.

Lemma track_ok_missed frs fr tr :
  track_ok overlap confidence cfg frs tr ->
  track_ok overlap confidence cfg (frs ++ [fr]) (missed cfg tr).
Proof.
  intros [Hrec Hconf]. split.
  - split; [cbn; lia|]. exists []. cbn.
    split; [reflexivity|]. split; [split; [discriminate|exact I]|].
    split; [intros j b; discriminate|congruence].
  - cbn [phase missed]. unfold demote.
    destruct (retireFrameCount cfg <=? S (misses tr)); [discriminate|].
    intros Hph. by apply (confirmed_evidence_app frs fr (track_id tr)), Hconf.
Qed.

Lemma track_ok_new frs fr id r :
  r ∈ fr_regions fr ->
  new_track confidence cfg (fr_id fr) id r
    ∈ tracks (snd (step overlap confidence cfg fr
                     (snd (run overlap confidence cfg frs init)))) ->
  track_ok overlap confidence cfg (frs ++ [fr])
           (new_track confidence cfg (fr_id fr) id r).
Proof.
  intros Hr Hin.
  assert (Hs : streak overlap cfg (frs ++ [fr]) (length frs) [region_bbox r]).
  { split; [|exact I]. intros j b Hj.
    apply list_lookup_singleton_Some in Hj as [-> <-].
    exists fr, r. split; [|auto]. rewrite Nat.add_0_r.
    apply list_lookup_middle. reflexivity. }
  assert (Hf : followed overlap confidence cfg (frs ++ [fr]) id (length frs)
                 [region_bbox r]).
  { intros j b Hj. apply list_lookup_singleton_Some in Hj as [-> <-].
    unfold tracked_at. rewrite Nat.add_0_r, state_after_last.
    exists (new_track confidence cfg (fr_id fr) id r). split; [assumption|done]. }
  split.
  - split; [cbn; rewrite length_app; cbn; lia|].
    exists [region_bbox r]. cbn [hits new_track length].
    rewrite length_app. cbn [length].
    replace (length frs + 1 - 1) with (length frs) by lia.
    split; [reflexivity|]. split; [assumption|]. split; [exact Hf|].
    intros _. reflexivity.
  - cbn [phase new_track]. unfold promote.
    destruct (Nat.leb_spec (confirmFrameCount cfg) 1); [|discriminate].
    intros _. exists (length frs), [region_bbox r].
    rewrite length_app. cbn [length]. split; [lia|]. split; [lia|].
    split; [assumption|exact Hf].
Qed.

(** Each track after the matching is its former self, either matched
    with a region of the frame that overlaps it or missed. *)
Lemma match_tracks_shape k (ts : list Track) :
  forall rs,
    let res := match_tracks overlap confidence cfg k ts rs in
    Forall2 (fun tr x =>
               (exists r, r ∈ rs /\
                  (minOverlap cfg < overlap (defect_bbox (defect tr)) (region_bbox r))%N /\
                  x = matched confidence cfg k tr r) \/
               x = missed cfg tr) ts (fst res) /\
    (forall r, r ∈ snd res -> r ∈ rs).
Proof.
  induction ts as [|tr ts IH]; intros rs; cbn.
  - split; [constructor|auto].
  - destruct (find_match overlap cfg (defect_bbox (defect tr)) rs) as [[i r]|] eqn:Hfm.
    + apply find_match_spec in Hfm as [Hi Hov].
      assert (Hdel : forall r0, r0 ∈ delete i rs -> r0 ∈ rs).
      { intros r0 Hr0. eapply elem_of_sublist; [exact Hr0|]. apply sublist_delete. }
      destruct (IH (delete i rs)) as (H1 & H3).
      destruct (match_tracks overlap confidence cfg k ts (delete i rs))
        as [ts' rest]. cbn in *.
      split; [|auto]. constructor.
      * left. exists r. split; [by eapply list_elem_of_lookup_2|]. auto.
      * eapply Forall2_impl; [exact H1|]. cbn.
        intros tr0 x [(r0 & Hr0 & Hov0 & ->)| ->]; [left|by right].
        exists r0. auto.
    + destruct (IH rs) as (H1 & H3).
      destruct (match_tracks overlap confidence cfg k ts rs) as [ts' rest]. cbn in *.
      split; [|assumption]. constructor; [by right|assumption].
Qed.

Lemma match_tracks_ids k (ts : list Track) (rs : list CandidateRegion) :
  map track_id (fst (match_tracks overlap confidence cfg k ts rs)) = map track_id ts.
Proof.
  destruct (match_tracks_shape k ts rs) as [Hall _].
  induction Hall as [|tr x ts ts' Hx Hall IH]; [reflexivity|].
  cbn. rewrite IH. f_equal.
  destruct Hx as [(r & _ & _ & ->)| ->]; reflexivity.
Qed.

Lemma spawn_shape k (rs : list CandidateRegion) :
  forall id,
    Forall (fun x => exists id' r, r ∈ rs /\ x = new_track confidence cfg k id' r)
           (spawn confidence cfg k id rs) /\
    map track_id (spawn confidence cfg k id rs) = seq id (length rs).
Proof.
  induction rs as [|r rs IH]; intros id; cbn.
  - split; [constructor|reflexivity].
  - destruct (IH (S id)) as [H1 H2]. split; [|by rewrite H2].
    constructor.
    + exists id, r. split; [by left|reflexivity].
    + eapply Forall_impl; [exact H1|]. cbn. intros x (id' & r' & Hr' & ->).
      exists id', r'. split; [by right|reflexivity].
Qed.

Lemma NoDup_map_filter {A B} (g : A -> B) (p : A -> bool) (l : list A) :
  NoDup (map g l) -> NoDup (map g (List.filter p l)).
Proof.
  induction l as [|x l IH]; cbn; [auto|].
  rewrite NoDup_cons. intros [Hx Hl]. destruct (p x); [|auto].
  cbn. apply NoDup_cons. split; [|auto].
  intros Hin. apply Hx. change map with (@fmap list _) in *.
  apply list_elem_of_fmap in Hin as (y & -> & Hy).
  apply list_elem_of_fmap. exists y. split; [reflexivity|].
  apply list_elem_of_In. apply list_elem_of_In, filter_In in Hy. tauto.
Qed.

Lemma NoDup_map_inj {A B} (g : A -> B) (l : list A) (x y : A) :
  NoDup (map g l) -> x ∈ l -> y ∈ l -> g x = g y -> x = y.
Proof.
  induction l as [|a l IH]; cbn; intros Hnd Hx Hy Heq.
  - by apply not_elem_of_nil in Hx.
  - apply NoDup_cons in Hnd as [Ha Hnd]. change map with (@fmap list _) in *.
    apply elem_of_cons in Hx as [->|Hx]; apply elem_of_cons in Hy as [->|Hy].
    + reflexivity.
    + exfalso. apply Ha. rewrite Heq. apply list_elem_of_fmap. eauto.
    + exfalso. apply Ha. rewrite <- Heq. apply list_elem_of_fmap. eauto.
    + by apply IH.
Qed.

Lemma step_tracks fr st :
  let mt := match_tracks overlap confidence cfg (fr_id fr) (tracks st) (fr_regions fr) in
  tracks (snd (step overlap confidence cfg fr st)) =
    List.filter (fun tr => negb (is_retired tr))
      (fst mt ++ spawn confidence cfg (fr_id fr) (nextDefectId st) (snd mt)) /\
  nextDefectId (snd (step overlap confidence cfg fr st)) =
    nextDefectId st + length (snd mt).
Proof.
  unfold step.
  destruct (match_tracks overlap confidence cfg (fr_id fr) (tracks st) (fr_regions fr))
    as [ts rest]. split; reflexivity.
Qed.

Lemma step_inv frs fr :
  inv overlap confidence cfg frs (snd (run overlap confidence cfg frs init)) ->
  inv overlap confidence cfg (frs ++ [fr])
      (snd (step overlap confidence cfg fr (snd (run overlap confidence cfg frs init)))).
Proof.
  set (st := snd (run overlap confidence cfg frs init)).
  intros [Hok Hids Hnd].
  destruct (step_tracks fr st) as [Htracks Hnext].
  pose proof (match_tracks_shape (fr_id fr) (tracks st) (fr_regions fr)) as [Hshape Hrest].
  pose proof (match_tracks_ids (fr_id fr) (tracks st) (fr_regions fr)) as Hsame.
  destruct (spawn_shape (fr_id fr)
              (snd (match_tracks overlap confidence cfg (fr_id fr) (tracks st)
                      (fr_regions fr))) (nextDefectId st)) as [Hnew Hseq].
  destruct (match_tracks overlap confidence cfg (fr_id fr) (tracks st) (fr_regions fr))
    as [ts rest]. cbn [fst snd] in *.
  assert (Hbound : Forall (fun id => id < nextDefectId st) (map track_id (tracks st))).
  { clear -Hids. induction Hids; cbn; constructor; assumption. }
  rewrite Forall_forall in Hbound.
  assert (Hsub : forall x,
             x ∈ tracks (snd (step overlap confidence cfg fr st)) ->
             x ∈ ts ++ spawn confidence cfg (fr_id fr) (nextDefectId st) rest).
  { intros x Hx. rewrite Htracks in Hx.
    apply list_elem_of_In, filter_In in Hx as [Hx _]. by apply list_elem_of_In. }
  split.
  - apply Forall_forall. intros x Hx. pose proof (Hsub x Hx) as Hx'.
    apply elem_of_app in Hx' as [Hx'|Hx'].
    + apply list_elem_of_lookup in Hx' as [i Hi].
      destruct (Forall2_lookup_r _ _ _ _ _ Hshape Hi) as (tr & Htr & Hcase).
      apply list_elem_of_lookup_2 in Htr.
      rewrite Forall_forall in Hok. specialize (Hok tr Htr).
      destruct Hcase as [(r & Hr & Hov & ->)| ->].
      * by apply track_ok_matched.
      * by apply track_ok_missed.
    + rewrite Forall_forall in Hnew.
      destruct (Hnew x Hx') as (id' & r & Hr & ->).
      apply track_ok_new; [by apply Hrest|assumption].
  - apply Forall_forall. intros x Hx. rewrite Hnext. apply Hsub in Hx.
    assert (Hid : track_id x ∈
              map track_id (ts ++ spawn confidence cfg (fr_id fr) (nextDefectId st) rest)).
    { change map with (@fmap list _). apply list_elem_of_fmap. eauto. }
    rewrite map_app, Hsame, Hseq in Hid. apply elem_of_app in Hid as [Hid|Hid].
    + apply Hbound in Hid. lia.
    + apply list_elem_of_In, in_seq in Hid. lia.
  - rewrite Htracks. apply NoDup_map_filter. rewrite map_app, Hsame, Hseq.
    apply NoDup_app. split; [assumption|]. split; [|apply NoDup_ListNoDup, seq_NoDup].
    intros x Hx Hx'. apply Hbound in Hx. apply list_elem_of_In, in_seq in Hx'. lia.
Qed.

Lemma step_defects fr st :
  defects (fst (step overlap confidence cfg fr st)) =
  map defect (List.filter is_confirmed
                (tracks (snd (step overlap confidence cfg fr st)))).
Proof.
  unfold step.
  destruct (match_tracks overlap confidence cfg (fr_id fr) (tracks st) (fr_regions fr))
    as [ts rest]. reflexivity.
Qed.

Lemma aggregator_init_inv : inv overlap confidence cfg [] init.
Proof. split; cbn; constructor. Qed.

Lemma run_inv (frs : list FrameRegions) :
  inv overlap confidence cfg frs (snd (run overlap confidence cfg frs init)).
Proof.
  induction frs as [|fr frs IH] using rev_ind; [apply aggregator_init_inv|].
  rewrite run_snoc. cbn [snd]. by apply step_inv.
Qed.

Lemma run_lookup (frs : list FrameRegions) (k : nat) (res : DetectionResult) :
  fst (run overlap confidence cfg frs init) !! k = Some res ->
  exists fr,
    frs !! k = Some fr /\
    res = fst (step overlap confidence cfg fr
                 (snd (run overlap confidence cfg (take k frs) init))) /\
    snd (run overlap confidence cfg (take (S k) frs) init) =
      snd (step overlap confidence cfg fr
             (snd (run overlap confidence cfg (take k frs) init))).
Proof.
  revert k res. induction frs as [|fr frs IH] using rev_ind; intros k res Hk.
  - discriminate.
  - rewrite run_snoc in Hk. cbn [fst] in Hk.
    assert (Hlen : forall l, length (fst (run overlap confidence cfg l init)) = length l).
    { clear. intros l. generalize init. induction l as [|a l IH]; intros st; cbn; [reflexivity|].
      destruct (step overlap confidence cfg a st) as [r0 st0].
      specialize (IH st0). destruct (run overlap confidence cfg l st0). cbn in *. lia. }
    apply lookup_snoc_Some in Hk as [[Hlt Hk]|[Hk <-]].
    + rewrite Hlen in Hlt. destruct (IH k res Hk) as (fr' & Hfr & Hres & Hst).
      exists fr'. rewrite lookup_app_l by assumption.
      rewrite !take_app_le by lia. auto.
    + rewrite Hlen in Hk. subst k. exists fr.
      rewrite list_lookup_middle by reflexivity.
      rewrite take_app_length.
      replace (take (S (length frs)) (frs ++ [fr])) with (frs ++ [fr]).
      * rewrite run_snoc. auto.
      * rewrite take_ge; [reflexivity|]. rewrite length_app. cbn. lia.
Qed.

(** C4: for every sequence of frames fed to the aggregator, every
    defect [d] in the defect list of the result of frame [k] belongs to
    a tracked defect that is Confirmed after frame [k]; there are
    [confirmFrameCount] consecutive frames, none later than frame [k],
    in which this very defect (the tracked defect with the id of [d])
    met a candidate region of the frame: successive regions overlap
    above the minimum, and after the [j]-th of these frames the tracked
    defect is at the [j]-th region with [j] consecutive frames counted
    and none missed; and no tracked defect that is Pending after frame
    [k] has the id of a reported one. *)
Theorem reported_defects_confirmed
    (frs : list FrameRegions) (k : nat) (res : DetectionResult) (d : Defect) :
  fst (run overlap confidence cfg frs init) !! k = Some res ->
  d ∈ defects res ->
  let st := snd (run overlap confidence cfg (take (S k) frs) init) in
  (exists tr, tr ∈ tracks st /\ defect tr = d /\ phase tr = Confirmed) /\
  (exists start bs,
     confirmFrameCount cfg <= length bs /\
     start + length bs <= S k /\
     streak overlap cfg frs start bs /\
     forall j b, bs !! j = Some b ->
       tracked_at overlap confidence cfg frs (start + j) (defect_id d) b (S j)) /\
  (forall tr, tr ∈ tracks st -> phase tr = Pending ->
              defect_id (defect tr) <> defect_id d).
Proof.
  intros Hk Hd st.
  destruct (run_lookup frs k res Hk) as (fr & Hfr & -> & Hst).
  pose proof (run_inv (take k frs)) as Hinv.
  apply (step_inv _ fr) in Hinv. rewrite <- Hst in Hinv. fold st in Hinv.
  rewrite <- (take_S_r _ _ _ Hfr) in Hinv.
  rewrite step_defects, <- Hst in Hd. fold st in Hd.
  change map with (@fmap list _) in Hd.
  apply list_elem_of_fmap in Hd as (tr & -> & Htr).
  apply list_elem_of_In, filter_In in Htr as [Htr Hconf].
  apply list_elem_of_In in Htr.
  assert (Hph : phase tr = Confirmed).
  { unfold is_confirmed in Hconf. destruct (phase tr); congruence. }
  destruct Hinv as [Hok Hids Hnd].
  split; [eauto|]. split.
  - rewrite Forall_forall in Hok. destruct (Hok tr Htr) as [_ Hev].
    destruct (Hev Hph) as (start & bs & HN & Hle & [Happ Hch] & Hf).
    assert (Hlen : length (take (S k) frs) = S k).
    { apply length_take_le. apply lookup_lt_Some in Hfr. lia. }
    exists start, bs. split; [assumption|]. split; [lia|].
    split; [split; [|assumption]|].
    + intros j b Hj.
      destruct (Happ j b Hj) as (fr' & r & Hl & Hr & Hb).
      exists fr', r. apply lookup_take_Some in Hl as [Hl _]. auto.
    + intros j b Hj. pose proof (lookup_lt_Some _ _ _ Hj) as Hlt.
      destruct (Hf j b Hj) as (tr0 & Htr0 & Hrest).
      exists tr0. split; [|exact Hrest].
      by rewrite state_after_take in Htr0 by lia.
  - intros tr' Htr' Hpend Heq.
    assert (tr' = tr) as -> by (eapply (NoDup_map_inj track_id); eauto).
    congruence.
Qed.

End Policy.

(** [reported_defects_confirmed] on scenario 2 of the spec: the defect
    reported for the third frame was followed through three frames. *)
Lemma reported_defects_confirmed_three_frames :
  exists start bs,
    3 <= length bs /\ start + length bs <= 3 /\
    streak overlap_permille demo_cfg three_frames start bs /\
    forall j b, bs !! j = Some b ->
      tracked_at overlap_permille full_confidence demo_cfg three_frames
                 (start + j) 0 b (S j).
Proof.
  refine (proj1 (proj2 (reported_defects_confirmed
            overlap_permille full_confidence demo_cfg
            three_frames 2 third_result blob_defect _ _))).
  - reflexivity.
  - apply list_elem_of_In. left. reflexivity.
Defined.

(** Scenario 2 of the spec: nothing is reported for the first two
    frames, and the third reports one defect with the region's box. *)
Example three_frames_report :
  map defects (fst (run overlap_permille full_confidence demo_cfg
                        three_frames init))
  = [[]; []; [blob_defect]].
Proof. reflexivity. Qed.

End AggregatorProofs.

(* ===================================================================== *)
(** * Further properties of the code in the repository *)
(* ===================================================================== *)

Module FrameProcessorMoreProofs.
Import FrameProcessor WebGPUUtils.
Local Open Scope string_scope.

(** X1: [initialize] returns true exactly when its argument is not
    null, and its result tells what the next [processFrame] does: after
    true the frame comes back processed with the given width and height,
    after false it comes back with "WebGPU device not initialized".
    [initialize] writes one line, to [cout] on success and to [cerr] on
    failure. *)
Theorem initialize_predicts_processFrame
    (this : t) (dev : WGPUDevice) (textureId : N) (w h : Z) :
  let '(ok, this', out) := initialize this dev in
  ok = negb (is_null dev) /\
  fst (processFrame this' textureId w h) =
    (if ok then {| processed := true; width := w; height := h; error := "" |}
     else {| processed := false; width := 0; height := 0;
             error := "WebGPU device not initialized" |}) /\
  out = (if ok then [Cout "Initializing WebGPU compute pipeline"]
         else [Cerr "Invalid WebGPU device provided"]).
Proof.
  unfold initialize, initializePipeline, processFrame.
  destruct (is_null dev) eqn:Hd; cbn; rewrite Hd; repeat split.
Qed.

Lemma placeholders_initialize (this : t) (dev : WGPUDevice) :
  pipeline (snd (fst (initialize this dev))) = pipeline this /\
  outputBuffer (snd (fst (initialize this dev))) = outputBuffer this.
Proof.
  unfold initialize, initializePipeline. destruct (is_null dev); split; reflexivity.
Qed.

(** X2: whatever sequence of [initialize] calls a fresh
    [FrameProcessor] receives, its [pipeline] and [outputBuffer] stay
    [nullptr]: [initializePipeline] reports success without creating
    either. *)
Theorem pipeline_never_created (devs : list WGPUDevice) :
  let this := initialize_all (fst constructor) devs in
  pipeline this = nullptr /\ outputBuffer this = nullptr.
Proof.
  cbn zeta.
  assert (H : forall this,
             pipeline (initialize_all this devs) = pipeline this /\
             outputBuffer (initialize_all this devs) = outputBuffer this).
  { induction devs as [|d devs IH]; intros this; [split; reflexivity|].
    cbn [initialize_all]. destruct (IH (snd (fst (initialize this d)))) as [-> ->].
    apply placeholders_initialize. }
  apply H.
Qed.

(** X3: [WebGPUUtils::createDevice] returns [nullptr] for every
    adapter, null or not, so a [FrameProcessor] initialised with its
    result always fails to initialise and its next [processFrame]
    reports "WebGPU device not initialized". *)
Theorem createDevice_never_initializes
    (adapter : WGPUAdapter) (this : t) (textureId : N) (w h : Z) :
  let dev := fst (createDevice adapter) in
  let '(ok, this', _) := initialize this dev in
  dev = nullptr /\ ok = false /\
  fst (processFrame this' textureId w h) =
    {| processed := false; width := 0; height := 0;
       error := "WebGPU device not initialized" |}.
Proof.
  unfold createDevice. destruct (is_null adapter); cbn; repeat split.
Qed.

End FrameProcessorMoreProofs.

Module WebGPUDetectorMoreProofs.
Import WebGPUDetector WebGPUDetectorMore.
Local Open Scope string_scope.

Ltac run_initialize :=
  unfold initialize, initialize_try, initialize_catch, try_catch, bind,
    eval, log, ret, set_adapter, set_device, get_this, getAdapter, getDevice.

(** X4: [initialize] changes what [getAdapter] returns only to the
    value [requestAdapter] resolved with, and what [getDevice] returns
    only to the value [requestDevice] resolved with; on every other path
    (missing [navigator.gpu], a rejected request) the earlier adapter
    and device stay in place, also when the call reports
    [supported = false]. *)
Theorem initialize_frame
    (navigator : Navigator) (this : t) (out : list ConsoleLine) :
  let this' := snd (fst (initialize navigator this out)) in
  (getAdapter this' = getAdapter this \/
   exists g, gpu navigator = Normal (Some g) /\
             requestAdapter g = Normal (getAdapter this')) /\
  (getDevice this' = getDevice this \/
   exists g ad, gpu navigator = Normal (Some g) /\
                requestAdapter g = Normal (Some ad) /\
                requestDevice ad = Normal (getDevice this')).
Proof.
  destruct navigator as [g]. run_initialize. cbn [gpu].
  destruct g as [[[ra]|]|e]; cbn; [|auto..].
  destruct ra as [[[aid rd]|]|e]; cbn; [|split; eauto..].
  destruct rd as [[[did ael]|]|e]; cbn; [|split; eauto 6..].
  destruct ael as [[]|e]; cbn; split; eauto 6.
Qed.

(** X5: when adapter and device were obtained and
    [device.addEventListener] then throws, [initialize] reports
    [supported = false] with neither adapter nor device in the status,
    while [getAdapter] and [getDevice] return the new adapter and
    device. *)
Theorem initialize_listener_failure_keeps_device
    (navigator : Navigator) (this : t) (out : list ConsoleLine)
    (g : GPU) (ad : GPUAdapter) (dev : GPUDevice) (e : Thrown) :
  gpu navigator = Normal (Some g) ->
  requestAdapter g = Normal (Some ad) ->
  requestDevice ad = Normal (Some dev) ->
  addEventListener dev = Throw e ->
  exists s this' out',
    initialize navigator this out = (Normal s, this', out') /\
    supported s = false /\
    status_adapter s = None /\ status_device s = None /\
    status_error s = Some (error_message e) /\
    getAdapter this' = Some ad /\ getDevice this' = Some dev.
Proof.
  destruct navigator as [gp]. cbn [gpu]. intros -> Ha Hd He.
  run_initialize. cbn. rewrite Ha. cbn. rewrite Hd. cbn. rewrite He. cbn.
  eexists _, _, _. repeat split.
Qed.

(** [initialize_listener_failure_keeps_device] on a device whose
    [addEventListener] throws. *)
Lemma initialize_listener_failure_example :
  let dev := {| device_id := 2; addEventListener := Throw (JSError "boom") |} in
  let ad := {| adapter_id := 1; requestDevice := Normal (Some dev) |} in
  let g := {| requestAdapter := Normal (Some ad) |} in
  exists s this' out',
    initialize {| gpu := Normal (Some g) |} new [] = (Normal s, this', out') /\
    supported s = false /\
    status_adapter s = None /\ status_device s = None /\
    status_error s = Some "boom" /\
    getAdapter this' = Some ad /\ getDevice this' = Some dev.
Proof.
  intros dev ad g.
  exact (initialize_listener_failure_keeps_device
           {| gpu := Normal (Some g) |} new [] g ad dev (JSError "boom")
           eq_refl eq_refl eq_refl eq_refl).
Defined.

Section Browser.
Variable info : GPUAdapter -> option GPUAdapterInfo.
Variable limits : GPUAdapter -> GPUSupportedLimits.
Variable createShaderModule : GPUDevice -> string -> Completion GPUShaderModule.
Variable createComputePipeline :
  GPUDevice -> GPUShaderModule -> Completion GPUComputePipeline.

Lemma or_else_non_empty (a b : string) : b <> "" -> or_else a b <> "".
Proof.
  unfold or_else. destruct (String.eqb_spec a ""); auto.
Qed.

Lemma append_non_empty_l (a b : string) : a <> "" -> a ++ b <> "".
Proof. destruct a; [congruence|discriminate]. Qed.

(** X6: [getAdapterInfo] never returns the empty string: it is either
    "No adapter information available" or
    "<vendor> <architecture> - <device>", where an empty vendor is
    replaced by "Unknown" and an empty device by "Unknown Device". *)
Theorem getAdapterInfo_non_empty (this : t) :
  getAdapterInfo info this <> "" /\
  (getAdapterInfo info this = "No adapter information available" \/
   exists a i, getAdapter this = Some a /\ info a = Some i /\
     getAdapterInfo info this =
       or_else (vendor i) "Unknown" ++ " " ++ architecture i ++ " - "
         ++ or_else (info_device i) "Unknown Device" /\
     or_else (vendor i) "Unknown" <> "" /\
     or_else (info_device i) "Unknown Device" <> "").
Proof.
  unfold getAdapterInfo, getAdapter.
  destruct (adapter this) as [a|]; [|split; [discriminate|auto]].
  destruct (info a) as [i|] eqn:Hi; [|split; [discriminate|auto]].
  assert (Hv : or_else (vendor i) "Unknown" <> "")
    by (apply or_else_non_empty; discriminate).
  split; [by apply append_non_empty_l|].
  right. exists a, i.
  assert (Harch : or_else (architecture i) "" = architecture i).
  { unfold or_else. destruct (String.eqb_spec (architecture i) ""); congruence. }
  rewrite Harch. split; [reflexivity|]. split; [assumption|].
  split; [reflexivity|]. split; [assumption|].
  apply or_else_non_empty; discriminate.
Qed.

(** X7: [createSimpleComputePipeline] never throws, leaves the
    detector unchanged and writes exactly one console line.  It returns
    a pipeline exactly when the detector holds a device and both
    [createShaderModule] and [createComputePipeline] return normally;
    without a device it returns null and reports
    "No WebGPU device available". *)
Theorem createSimpleComputePipeline_total (this : t) (out : list ConsoleLine) :
  exists result line,
    createSimpleComputePipeline createShaderModule createComputePipeline this out
      = (Normal result, this, List.app out [line]) /\
    match result with
    | Some p =>
        exists dev m,
          getDevice this = Some dev /\
          createShaderModule dev shaderCode = Normal m /\
          createComputePipeline dev m = Normal p /\
          line = console_log "Simple compute pipeline created successfully"
    | None =>
        (getDevice this = None /\
         line = console_error "No WebGPU device available") \/
        (exists dev, getDevice this = Some dev /\
           line = console_error "Failed to create compute pipeline:" /\
           (forall m, createShaderModule dev shaderCode = Normal m ->
                      exists e, createComputePipeline dev m = Throw e))
    end.
Proof.
  unfold createSimpleComputePipeline, try_catch, bind, eval, log, ret,
    get_this, getDevice.
  destruct (device this) as [dev|]; cbn.
  2: { eexists _, _. split; [reflexivity|]. left. auto. }
  destruct (createShaderModule dev shaderCode) as [m|e] eqn:Hm; cbn.
  - destruct (createComputePipeline dev m) as [p|e] eqn:Hp; cbn.
    + eexists _, _. split; [reflexivity|]. cbn. eauto 6.
    + eexists _, _. split; [reflexivity|]. cbn. right. exists dev.
      split; [reflexivity|]. split; [reflexivity|].
      intros m' Heq. exists e. congruence.
  - eexists _, _. split; [reflexivity|]. cbn. right. exists dev.
    split; [reflexivity|]. split; [reflexivity|].
    intros m' Heq. congruence.
Qed.

(** X8: after [initialize], [getLimits] is empty exactly when
    [getAdapter] is null; after an [initialize] that reported
    [supported = true] it holds the five limits of the adapter named in
    the status. *)
Theorem getLimits_after_initialize
    (navigator : Navigator) (this : t) (out : list ConsoleLine) :
  let '(r, this', _) := initialize navigator this out in
  (getLimits limits this' = [] <-> getAdapter this' = None) /\
  (forall s, r = Normal s -> supported s = true ->
     exists a, status_adapter s = Some (Some a) /\
       getLimits limits this' =
         [ ("maxBufferSize", maxBufferSize (limits a));
           ("maxTextureDimension2D", maxTextureDimension2D (limits a));
           ("maxComputeWorkgroupSizeX", maxComputeWorkgroupSizeX (limits a));
           ("maxComputeWorkgroupSizeY", maxComputeWorkgroupSizeY (limits a));
           ("maxComputeInvocationsPerWorkgroup",
            maxComputeInvocationsPerWorkgroup (limits a)) ]).
Proof.
  destruct (initialize navigator this out) as [[r this'] out'] eqn:Hrun.
  split.
  - unfold getLimits, getAdapter. destruct (adapter this'); split; congruence.
  - intros s -> Hsup. revert Hrun. destruct navigator as [g].
    run_initialize. cbn [gpu].
    destruct g as [[[ra]|]|e]; cbn;
      try (intros [= <- <- <-]; discriminate).
    destruct ra as [[[aid rd]|]|e]; cbn;
      try (intros [= <- <- <-]; discriminate).
    destruct rd as [[[did ael]|]|e]; cbn;
      try (intros [= <- <- <-]; discriminate).
    destruct ael as [[]|e]; cbn; intros [= <- <- <-]; [|discriminate].
    eexists. split; reflexivity.
Qed.

End Browser.
End WebGPUDetectorMoreProofs.

Module CameraCaptureMoreProofs.
Import CameraCapture CameraCaptureMore.
Local Open Scope string_scope.

(** *** stop *)

Lemma forEach_stop_streams (trs : list ref) :
  forall h,
    heap_streams (forEach_stop h trs) = heap_streams h /\
    heap_videos (forEach_stop h trs) = heap_videos h.
Proof.
  induction trs as [|tr trs IH]; intros h; [split; reflexivity|].
  cbn [forEach_stop]. destruct (IH (stop_track h tr)) as [-> ->].
  unfold stop_track. destruct (heap_tracks h !! tr); split; reflexivity.
Qed.

Lemma stop_track_lookup (h : Heap) (tr tr' : ref) :
  heap_tracks (stop_track h tr) !! tr' =
  (if decide (tr' = tr) then end_track else id) <$> heap_tracks h !! tr'.
Proof.
  unfold stop_track. destruct (heap_tracks h !! tr) as [track|] eqn:Htr; cbn.
  - case_decide as Heq.
    + subst tr'. rewrite lookup_insert_eq, Htr. reflexivity.
    + rewrite lookup_insert_ne by congruence.
      destruct (heap_tracks h !! tr'); reflexivity.
  - case_decide as Heq.
    + subst tr'. rewrite Htr. reflexivity.
    + destruct (heap_tracks h !! tr'); reflexivity.
Qed.

Lemma end_track_twice (track : MediaStreamTrack) :
  end_track (end_track track) = end_track track.
Proof. reflexivity. Qed.

Lemma forEach_stop_lookup (trs : list ref) :
  forall h tr',
    heap_tracks (forEach_stop h trs) !! tr' =
    (if decide (tr' ∈ trs) then end_track else id) <$> heap_tracks h !! tr'.
Proof.
  induction trs as [|tr trs IH]; intros h tr'.
  - cbn. rewrite decide_False by apply not_elem_of_nil.
    destruct (heap_tracks h !! tr'); reflexivity.
  - cbn [forEach_stop]. rewrite IH, stop_track_lookup. unfold ref in *.
    destruct (heap_tracks h !! tr') as [track|]; [|reflexivity]. cbn.
    destruct (decide (tr' = tr)) as [->|Hne].
    + rewrite (decide_True (P := tr ∈ tr :: trs)) by (by left).
      destruct (decide (tr ∈ trs)); reflexivity.
    + destruct (decide (tr' ∈ trs)) as [Hin|Hnin].
      * rewrite decide_True by (by right). reflexivity.
      * rewrite decide_False; [reflexivity|].
        intros [?|?]%elem_of_cons; contradiction.
Qed.

Lemma omap_pointwise {A B} (f g : A -> option B) (l : list A) :
  (forall x, f x = g x) -> omap f l = omap g l.
Proof.
  intros H. induction l as [|a l IH]; [reflexivity|].
  cbn. rewrite H, IH. reflexivity.
Qed.

Lemma forEach_stop_console (trs : list ref) :
  forall h,
    console (forEach_stop h trs) =
    List.app (console h)
      (omap (fun tr => stop_message <$> heap_tracks h !! tr) trs).
Proof.
  induction trs as [|tr trs IH]; intros h.
  - cbn. by rewrite app_nil_r.
  - cbn [forEach_stop]. rewrite IH.
    assert (Hmsg : forall tr',
      stop_message <$> heap_tracks (stop_track h tr) !! tr' =
      stop_message <$> heap_tracks h !! tr').
    { intros tr'. rewrite stop_track_lookup. unfold ref in *.
      destruct (heap_tracks h !! tr'); [|reflexivity]. cbn.
      case_decide; reflexivity. }
    rewrite (omap_pointwise _
               (fun tr0 => stop_message <$> heap_tracks h !! tr0))
      by (intros; apply Hmsg).
    cbn [omap list_omap]. unfold stop_track at 1.
    destruct (heap_tracks h !! tr) as [track|]; cbn.
    + rewrite <- app_assoc. reflexivity.
    + reflexivity.
Qed.

(** X9: [stop] on a camera that holds a stream ends every track of
    that stream and leaves every other track as it was, keeps the
    streams, logs one "Stopped <kind> track: <label>" line per track in
    [getTracks()] order, and clears [srcObject] of its video element and
    of no other. *)
Theorem stop_ends_tracks (this : t) (h : Heap) (s : ref) :
  stream this = Some s ->
  let h' := snd (stop this h) in
  (forall tr,
     heap_tracks h' !! tr =
     (if decide (tr ∈ getTracks h s) then end_track else id)
       <$> heap_tracks h !! tr) /\
  heap_streams h' = heap_streams h /\
  console h' =
    List.app (console h)
      (omap (fun tr => stop_message <$> heap_tracks h !! tr) (getTracks h s)) /\
  (forall v,
     heap_videos h' !! v =
     (if decide (videoElement this = Some v)
      then (fun el => {| srcObject := None; autoplay := autoplay el;
                         muted := muted el; playsInline := playsInline el |})
      else id) <$> heap_videos h !! v).
Proof.
  intros Hs h'. subst h'. unfold stop. rewrite Hs.
  destruct (forEach_stop_streams (getTracks h s) h) as [Hst Hvid].
  pose proof (forEach_stop_lookup (getTracks h s) h) as Htr.
  pose proof (forEach_stop_console (getTracks h s) h) as Hcon.
  cbn [videoElement].
  destruct (videoElement this) as [v|]; cbn [snd].
  - unfold clear_srcObject. rewrite Hvid.
    destruct (heap_videos h !! v) as [el|] eqn:Hel; cbn.
    + repeat split; try assumption. intros v'.
      case_decide as Heq.
      * injection Heq as <-. rewrite lookup_insert_eq, Hel. reflexivity.
      * rewrite lookup_insert_ne by congruence. rewrite ?Hvid.
        unfold ref in *. destruct (heap_videos h !! v'); reflexivity.
    + repeat split; try assumption. intros v'. rewrite ?Hvid.
      case_decide as Heq.
      * injection Heq as <-. rewrite Hel. reflexivity.
      * unfold ref in *. destruct (heap_videos h !! v'); reflexivity.
  - repeat split; try assumption. intros v'. rewrite ?Hvid.
    rewrite decide_False by discriminate.
    unfold ref in *. destruct (heap_videos h !! v'); reflexivity.
Qed.

(** *** captureFrame, takePhoto and the frame timer after stop *)

(** X10: after [stop], [captureFrame] returns null and logs
    "Video element or canvas not set up", a frame timer that is still
    running never calls its callback, and [takePhoto] resolves with null
    and logs "Canvas not set up". *)
Theorem capture_after_stop (this : t) (d : Dom) :
  let '(this1, d1) := stop_dom this d in
  captureFrame this1 d1 =
    (None, log_dom "Video element or canvas not set up" d1) /\
  processFrame_tick this1 d1 =
    (None, log_dom "Video element or canvas not set up" d1) /\
  takePhoto this1 d1 = (Normal None, log_dom "Canvas not set up" d1).
Proof.
  unfold stop_dom.
  pose proof (CameraCaptureProofs.stop_resets this (heap d)) as Hreset.
  destruct (stop this (heap d)) as [this1 h1]. cbn in Hreset. subst this1.
  repeat split.
Qed.

(** *** createVideoElement *)

(** X11: [createVideoElement] creates at most one element: a second
    call returns the same element and changes nothing, also after the
    stream has changed.  The element gets the stream that the camera
    holds at the moment of creation as its [srcObject] (null if it holds
    none) and is placed at an address that was free; no other element
    is touched. *)
Theorem createVideoElement_once (this : t) (h : Heap) :
  let '(v, this1, h1) := createVideoElement this h in
  createVideoElement this1 h1 = (v, this1, h1) /\
  videoElement this1 = Some v /\
  (forall s1 h2, createVideoElement (set_stream s1 this1) h2
                 = (v, set_stream s1 this1, h2)) /\
  match videoElement this with
  | Some _ => this1 = this /\ h1 = h
  | None =>
      heap_videos h !! v = None /\
      heap_videos h1 !! v =
        Some {| srcObject := stream this; autoplay := true;
                muted := true; playsInline := true |} /\
      (forall v', v' <> v -> heap_videos h1 !! v' = heap_videos h !! v')
  end.
Proof.
  unfold createVideoElement.
  destruct (videoElement this) as [v|] eqn:Hv.
  - rewrite Hv. repeat split. intros s1 h2. cbn. rewrite Hv. reflexivity.
  - cbn. repeat split.
    + apply not_elem_of_dom, is_fresh.
    + apply lookup_insert_eq.
    + intros v' Hne. by apply lookup_insert_ne.
Qed.

(** *** getVideoTrack *)

Lemma head_filter {A} (p : A -> bool) (l : list A) (x : A) :
  head (List.filter p l) = Some x <->
  exists pre post,
    l = (pre ++ x :: post)%list /\ p x = true /\ Forall (fun y => p y = false) pre.
Proof.
  induction l as [|a l IH]; cbn.
  - split; [discriminate|]. intros (pre & post & Heq & _).
    destruct pre; discriminate.
  - destruct (p a) eqn:Hpa; cbn.
    + split.
      * intros [= <-]. exists [], l. repeat split; auto.
      * intros (pre & post & Heq & Hx & Hpre).
        destruct pre as [|b pre]; cbn in Heq; injection Heq as <- _;
          [reflexivity|].
        apply Forall_cons in Hpre as [Hb _]. congruence.
    + rewrite IH. split.
      * intros (pre & post & -> & Hx & Hpre). exists (a :: pre), post.
        repeat split; auto.
      * intros (pre & post & Heq & Hx & Hpre).
        destruct pre as [|b pre]; cbn in Heq; injection Heq as <- Heq.
        { congruence. }
        apply Forall_cons in Hpre as [_ Hpre]. eauto.
Qed.

Lemma getVideoTrack_is_video (this : t) (h : Heap) (tr : ref) :
  getVideoTrack this h = Some tr -> is_video h tr = true.
Proof.
  unfold getVideoTrack, getVideoTracks.
  destruct (stream this) as [s|]; [|discriminate].
  destruct (List.filter (is_video h) (getTracks h s)) as [|tr0 trs] eqn:Hf;
    [discriminate|].
  cbn. intros [= <-].
  assert (Hin : In tr0 (List.filter (is_video h) (getTracks h s)))
    by (rewrite Hf; left; reflexivity).
  apply filter_In in Hin. tauto.
Qed.

(** X12: [getVideoTrack] returns a track exactly when the camera holds a
    stream that has it as its first track of kind "video" in
    [getTracks()] order. *)
Theorem getVideoTrack_first_video (this : t) (h : Heap) (tr : ref) :
  getVideoTrack this h = Some tr <->
  exists s pre post,
    stream this = Some s /\
    getTracks h s = (pre ++ tr :: post)%list /\
    is_video h tr = true /\
    Forall (fun tr' => is_video h tr' = false) pre.
Proof.
  unfold getVideoTrack, getVideoTracks.
  destruct (stream this) as [s|].
  - assert (Hguard :
      (if (0 <? length (List.filter (is_video h) (getTracks h s)))%nat
       then head (List.filter (is_video h) (getTracks h s)) else None)
      = head (List.filter (is_video h) (getTracks h s))).
    { destruct (List.filter (is_video h) (getTracks h s)); reflexivity. }
    rewrite Hguard, head_filter. split.
    + intros (pre & post & ?); eauto.
    + intros (s' & pre & post & [= <-] & ?); eauto.
  - split; [discriminate|]. intros (s' & ? & ? & [=] & _).
Qed.

(** X13: [getStreamSettings] returns settings exactly when
    [getVideoTrack] returns a track, and they are the settings of that
    track, which is of kind "video". *)
Theorem getStreamSettings_of_video_track
    (this : t) (h : Heap) (st : MediaTrackSettings) :
  getStreamSettings this h = Some st <->
  exists tr track,
    getVideoTrack this h = Some tr /\
    heap_tracks h !! tr = Some track /\
    kind track = "video" /\ settings track = st.
Proof.
  unfold getStreamSettings.
  destruct (getVideoTrack this h) as [tr|] eqn:Hvt.
  - pose proof (getVideoTrack_is_video this h tr Hvt) as Hvid.
    unfold is_video in Hvid. unfold ref in *.
    destruct (heap_tracks h !! tr) as [track|] eqn:Htrack; [|discriminate].
    cbn. split.
    + intros [= <-]. exists tr, track.
      split; [reflexivity|]. split; [assumption|]. split; [|reflexivity].
      by apply String.eqb_eq.
    + intros (tr' & track' & [= <-] & Htr' & _ & <-). congruence.
  - split; [discriminate|]. intros (tr & track & [=] & _).
Qed.

(** *** initialize *)

Section Numbers.
Variable Number : Type.
Variable falsy : Number -> bool.
Variable num : Z -> Number.

Lemma errorMessage_named (name : string) : errorMessage (ThrownNamed name) <> "".
Proof.
  cbn.
  repeat (match goal with
          | |- context [String.eqb ?a ?b] =>
              destruct (String.eqb_spec a b); cbn; [discriminate|]
          end).
  assumption.
Qed.

(** X14: [CameraCapture.initialize] never throws and changes no track,
    stream or video element and none of the camera's video element,
    canvas and context.  With [available = true] the status carries a
    non-null stream, no error, and [getStream] returns that stream.
    With [available = false] it carries an error and no stream,
    [getStream] returns what it returned before or null, and the error
    is non-empty unless the request threw an [Error] with an empty
    message or an empty string. *)
Theorem camera_initialize_total
    (navigator : Navigator Number) (constraints : CameraConstraints Number)
    (this : t) (h : Heap) :
  exists s this' h',
    initialize Number falsy num navigator constraints this h
      = (Normal s, this', h') /\
    heap_tracks h' = heap_tracks h /\ heap_streams h' = heap_streams h /\
    heap_videos h' = heap_videos h /\
    videoElement this' = videoElement this /\
    canvas this' = canvas this /\ context this' = context this /\
    if available s then
      exists st,
        status_stream s = Some (Some st) /\ status_error s = None /\
        getStream this' = Some st
    else
      exists msg,
        status_stream s = None /\ status_error s = Some msg /\
        (getStream this' = getStream this \/ getStream this' = None) /\
        (msg <> "" \/
         exists e this1 h1,
           initialize_try Number falsy num navigator constraints this h
             = (Throw e, this1, h1) /\
           (e = ThrownError "" \/ e = ThrownString "")).
Proof.
  unfold initialize, initialize_try,
    getStream.
  destruct (mediaDevices _ navigator) as [[[request|]]|]; cbn.
  2,3: eexists _, _, _; split; [reflexivity|]; cbn; repeat split;
       eexists; repeat split; [left; reflexivity|left; discriminate].
  destruct (request _) as [[st|]|e]; cbn.
  - eexists _, _, _. split; [reflexivity|]. cbn. repeat split.
    eexists. repeat split.
  - eexists _, _, _. split; [reflexivity|]. cbn. repeat split.
    eexists. repeat split; [right; reflexivity|left; discriminate].
  - eexists _, _, _. split; [reflexivity|]. cbn. repeat split.
    eexists. repeat split; [left; reflexivity|].
    destruct e as [m|m|name|].
    + destruct (String.eqb_spec m ""); [subst; right|left; assumption].
      eexists _, _, _. split; [reflexivity|auto].
    + destruct (String.eqb_spec m ""); [subst; right|left; assumption].
      eexists _, _, _. split; [reflexivity|auto].
    + left. apply errorMessage_named.
    + left. discriminate.
Qed.

(** X15: for a new [CameraCapture], as [App] uses it: if [initialize]
    reports [available = false] then [getStream], [getVideoTrack] and
    [getStreamSettings] return null; if it reports [available = true]
    then [getStreamSettings] returns the settings of the first video
    track of the obtained stream, or null if it has none. *)
Theorem fresh_camera_failure
    (navigator : Navigator Number) (constraints : CameraConstraints Number)
    (h : Heap) :
  let '(r, this', h') :=
    initialize Number falsy num navigator constraints new h in
  exists s, r = Normal s /\
    if available s then
      exists st, getStream this' = Some st /\
        getStreamSettings this' h' =
          match head (getVideoTracks h st) with
          | Some tr => settings <$> heap_tracks h !! tr
          | None => None
          end
    else
      getStream this' = None /\ getVideoTrack this' h' = None /\
      getStreamSettings this' h' = None.
Proof.
  unfold initialize, initialize_try.
  destruct (mediaDevices _ navigator) as [[[request|]]|]; cbn.
  2,3: eexists; split; [reflexivity|]; cbn; repeat split.
  destruct (request _) as [[st|]|e]; cbn.
  - eexists. split; [reflexivity|]. cbn. exists st. split; [reflexivity|].
    unfold getStreamSettings, getVideoTrack, getVideoTracks, getTracks, is_video.
    cbn.
    destruct (List.filter _ _) as [|tr trs]; reflexivity.
  - eexists. split; [reflexivity|]. cbn. repeat split.
  - eexists. split; [reflexivity|]. cbn. repeat split.
Qed.

End Numbers.

End CameraCaptureMoreProofs.

Module CameraCaptureFrameProofs.
Import CameraCapture CameraCaptureMore CameraCaptureExamples.
Local Open Scope string_scope.

(** [stop_ends_tracks] on a stream of an audio and a video track. *)
Lemma stop_ends_tracks_example :
  let h' := snd (stop streaming two_track_heap) in
  (forall tr,
     heap_tracks h' !! tr =
     (if decide (tr ∈ getTracks two_track_heap 7%N) then end_track else id)
       <$> heap_tracks two_track_heap !! tr) /\
  heap_streams h' = heap_streams two_track_heap /\
  console h' = ["Stopped audio track: mic"; "Stopped video track: cam"].
Proof.
  destruct (CameraCaptureMoreProofs.stop_ends_tracks
              streaming two_track_heap 7%N eq_refl) as (H1 & H2 & H3 & _).
  split; [exact H1|]. split; [exact H2|]. rewrite H3. reflexivity.
Defined.

Section Numbers.
Variable Number : Type.
Variable falsy : Number -> bool.
Variable num : Z -> Number.

(** X16: in the constraints [initialize] passes to [getUserMedia], the
    ideal width, height and frame rate are the caller's when the caller
    gave one that is not falsy, and 1280, 720 and 30 otherwise (so a 0 or
    NaN is replaced, and no ideal value is ever falsy); the device id is
    the caller's when it is given and not empty and is absent otherwise,
    and audio is never asked for. *)
Theorem defaultConstraints_never_falsy (constraints : CameraConstraints Number) :
  falsy (num 1280) = false -> falsy (num 720) = false ->
  falsy (num 30) = false ->
  let c := defaultConstraints Number falsy num constraints in
  falsy (ideal _ (video_width _ c)) = false /\
  falsy (ideal _ (video_height _ c)) = false /\
  falsy (ideal _ (video_frameRate _ c)) = false /\
  video_deviceId _ c <> Some "" /\
  audio _ c = false /\
  (forall n, c_width _ constraints = Some n -> falsy n = false ->
             ideal _ (video_width _ c) = n) /\
  (c_width _ constraints = None \/
   (exists n, c_width _ constraints = Some n /\ falsy n = true) ->
   ideal _ (video_width _ c) = num 1280) /\
  (forall n, c_height _ constraints = Some n -> falsy n = false ->
             ideal _ (video_height _ c) = n) /\
  (c_height _ constraints = None \/
   (exists n, c_height _ constraints = Some n /\ falsy n = true) ->
   ideal _ (video_height _ c) = num 720) /\
  (forall n, c_frameRate _ constraints = Some n -> falsy n = false ->
             ideal _ (video_frameRate _ c) = n) /\
  (c_frameRate _ constraints = None \/
   (exists n, c_frameRate _ constraints = Some n /\ falsy n = true) ->
   ideal _ (video_frameRate _ c) = num 30) /\
  (forall id, c_deviceId _ constraints = Some id -> id <> "" ->
              video_deviceId _ c = Some id) /\
  (c_deviceId _ constraints = None \/ c_deviceId _ constraints = Some "" ->
   video_deviceId _ c = None).
Proof.
  intros H1 H2 H3. cbn.
  assert (Hor : forall n d, falsy (num d) = false ->
                            falsy (number_or Number falsy num n d) = false).
  { intros [n|] d Hd; cbn; [|assumption].
    destruct (falsy n) eqn:Hn; assumption. }
  assert (Hkeep : forall g d n, g = Some n -> falsy n = false ->
                                number_or Number falsy num g d = n).
  { intros g d n -> Hn. cbn. by rewrite Hn. }
  assert (Hdef : forall g d,
             g = None \/ (exists n, g = Some n /\ falsy n = true) ->
             number_or Number falsy num g d = num d).
  { intros g d [-> | (n & -> & Hn)]; cbn; [done|]. by rewrite Hn. }
  split; [auto|]. split; [auto|]. split; [auto|].
  split.
  { destruct (c_deviceId _ constraints) as [id|]; [|discriminate].
    destruct (String.eqb_spec id ""); [discriminate|congruence]. }
  split; [reflexivity|].
  split; [apply Hkeep|]. split; [apply Hdef|].
  split; [apply Hkeep|]. split; [apply Hdef|].
  split; [apply Hkeep|]. split; [apply Hdef|].
  split.
  - intros id -> Hid. by destruct (String.eqb_spec id "").
  - intros [-> | ->]; reflexivity.
Qed.

End Numbers.

(** [defaultConstraints_never_falsy] with integers as numbers: a width
    of 0 is replaced by 1280, an absent height by 720, and a frame rate
    of 60 is kept. *)
Lemma defaultConstraints_never_falsy_example :
  let c := defaultConstraints Z (Z.eqb 0) (fun z => z)
             {| c_width := Some 0%Z; c_height := None; c_frameRate := Some 60%Z;
                c_facingMode := None; c_deviceId := Some "" |} in
  ideal _ (video_width _ c) = 1280%Z /\
  ideal _ (video_height _ c) = 720%Z /\
  ideal _ (video_frameRate _ c) = 60%Z /\
  video_deviceId _ c = None /\
  audio _ c = false.
Proof.
  destruct (defaultConstraints_never_falsy Z (Z.eqb 0) (fun z => z)
              {| c_width := Some 0%Z; c_height := None; c_frameRate := Some 60%Z;
                 c_facingMode := None; c_deviceId := Some "" |}
              eq_refl eq_refl eq_refl)
    as (_ & _ & _ & _ & Ha & _ & Hw & _ & Hh & Hf & _ & _ & Hd).
  split; [apply Hw; right; by exists 0%Z|].
  split; [apply Hh; by left|].
  split; [by apply Hf|].
  split; [apply Hd; by right|exact Ha].
Defined.

Section CanvasNumbers.
Variable Number : Type.
Variable num : Z -> Number.
Variable ToUint32 : Number -> N.

(** X17: on a camera with a video element that has enough data,
    [captureFrame] right after [setupCanvas] draws and reads at the size
    the new canvas has: the width and height given to [setupCanvas] (640
    and 480 when omitted) as the canvas stores them, that is converted
    to an unsigned 32-bit integer and replaced by the canvas's default
    300 or 150 when that is above 2147483647.  It returns what
    [getImageData] returned; it returns null and logs
    "Failed to capture frame:" when either canvas call throws, and
    returns null with "Video element or canvas not set up" when
    [getContext('2d')] gave null. *)
Theorem captureFrame_after_setupCanvas
    (getContext : option CanvasRenderingContext2D) (width height : option Number)
    (this : t) (d : Dom) (v : ref) :
  videoElement this = Some v ->
  video_readyState d v = HAVE_ENOUGH_DATA ->
  let '(_, this1, d1) :=
    setupCanvas Number num ToUint32 getContext width height this d in
  let w := reflect_unsigned_long 300 (ToUint32 (default (num 640) width)) in
  let h := reflect_unsigned_long 150 (ToUint32 (default (num 480) height)) in
  captureFrame this1 d1 =
  match getContext with
  | None => (None, log_dom "Video element or canvas not set up" d1)
  | Some ctx =>
      match drawImage ctx v w h with
      | Throw _ => (None, log_dom "Failed to capture frame:" d1)
      | Normal _ =>
          match getImageData ctx w h with
          | Normal imageData => (Some imageData, d1)
          | Throw _ => (None, log_dom "Failed to capture frame:" d1)
          end
      end
  end.
Proof.
  intros Hv Hready. unfold setupCanvas, captureFrame. cbn [videoElement canvas context].
  rewrite Hv. destruct getContext as [ctx|]; [|reflexivity].
  unfold video_readyState in *. cbn [readyState_of]. rewrite Hready. cbn [negb N.eqb].
  rewrite N.eqb_refl. cbn [negb].
  unfold captureFrame_try. cbn [heap_canvases heap_contexts].
  rewrite !lookup_insert_eq. cbn [canvas_width canvas_height].
  unfold default_canvas_width, default_canvas_height.
  destruct (drawImage ctx v _ _); [|reflexivity].
  destruct (getImageData ctx _ _); reflexivity.
Qed.

End CanvasNumbers.

(** [captureFrame_after_setupCanvas] with integers as numbers: a width
    of 4294967298 gives a canvas 2 wide, an omitted height one 480 high. *)
Lemma captureFrame_after_setupCanvas_example :
  let '(_, this1, d1) :=
    setupCanvas Z (fun z => z) ToUint32_integer
      (Some black_context) (Some 4294967298%Z) None streaming ready_dom in
  captureFrame this1 d1 =
    (Some {| image_width := 2; image_height := 480;
             image_data := replicate 3840 0%N |}, d1).
Proof.
  exact (captureFrame_after_setupCanvas Z (fun z => z) ToUint32_integer
           (Some black_context) (Some 4294967298%Z) None
           streaming ready_dom 3%N eq_refl eq_refl).
Defined.

(** A negative height, or one of 2147483648, gives a canvas of the
    default height 150. *)
Example setupCanvas_out_of_range :
  let size (width height : Z) :=
    let '(c, _, d1) :=
      setupCanvas Z (fun z => z) ToUint32_integer None (Some width) (Some height)
        streaming ready_dom in
    (fun cv => (canvas_width cv, canvas_height cv)) <$> heap_canvases d1 !! c in
  size 640%Z (-1)%Z = Some (640%N, 150%N) /\
  size 2147483648%Z 2147483647%Z = Some (300%N, 2147483647%N).
Proof. split; vm_compute; reflexivity. Qed.

End CameraCaptureFrameProofs.

Module OptimizedFrameProcessorMoreProofs.
Import OptimizedFrameProcessor OptimizedFrameProcessorMore.

(** X18: calls of [processFrameOptimized] made less than 33 ms after
    the last accepted frame change nothing, however many there are:
    their frames are not uploaded and no index or counter records
    them. *)
Theorem burst_is_discarded (batch : t -> t) (calls : list (Z * list N)) (this : t) :
  Forall (fun call => (fst call - lastFrameTime this < 33)%Z) calls ->
  processAll batch calls this = this.
Proof.
  unfold processAll. induction 1 as [|call calls Hcall _ IH]; [reflexivity|].
  cbn [fold_left]. unfold processFrameOptimized at 2.
  destruct (Z.ltb_spec (fst call - lastFrameTime this) 33); [exact IH|lia].
Qed.

(** [burst_is_discarded] on three calls within 33 ms of a frame. *)
Lemma burst_is_discarded_example :
  processAll (fun this => this) [(40%Z, [7%N]); (60%Z, [8%N]); (72%Z, [9%N])]
    (processFrameOptimized (fun this => this) 40 [1]%N new)
  = processFrameOptimized (fun this => this) 40 [1]%N new.
Proof.
  apply burst_is_discarded. cbn. repeat constructor.
Defined.







End OptimizedFrameProcessorMoreProofs.
